(** * Radix sort (radix_sort.h): a shallow embedding and its properties

    The C header defines four functions: [sort_insertion], [sort_counting],
    [sort_radix_thread] and the driver [sort_radix].  Each is embedded below
    as a function on buffers ([list Z], indexed from 0) that returns either
    the updated buffers or the first operation that C leaves undefined: an
    access outside the buffer it addresses, or a shift of an [int] by a
    count outside [0, 32). *)

From stdpp Require Import base option list numbers sorting.
From Stdlib Require Import ZArith Lia.

Local Open Scope Z_scope.

(** ** Constants of the header *)

Definition MAX_THREADS : Z := 8.
Definition RADIX : Z := 256.
Definition INSERTION_SORT_THRESHOLD : Z := 32.

(** ** Machine integers

    [int] is a 32-bit two's complement integer.  The histogram counters
    and the chunk arithmetic of the driver wrap around.  The loop indices
    of the sorting kernels are written in [Z]: they stay in the range of
    [int] on every buffer whose length does.  Every buffer access is
    bounds-checked. *)

Module Int32.
Definition INT_MAX : Z := 2 ^ 31 - 1.
Definition INT_MIN : Z := - 2 ^ 31.
Definition wrap (z : Z) : Z := (z + 2 ^ 31) mod 2 ^ 32 - 2 ^ 31.
Definition add (a b : Z) : Z := wrap (a + b).
Definition sub (a b : Z) : Z := wrap (a - b).
Definition mul (a b : Z) : Z := wrap (a * b).
(** C division truncates toward zero. *)
Definition div (a b : Z) : Z := wrap (Z.quot a b).
End Int32.

(** ** Outcomes and buffer accesses *)

Inductive outcome (A : Type) : Type :=
  | Ok (a : A)
  | OutOfBounds (index : Z)
  | ShiftTooWide (count : Z).
Arguments Ok {A} a.
Arguments OutOfBounds {A} index.
Arguments ShiftTooWide {A} count.

#[export] Instance outcome_ret : MRet outcome := λ A a, Ok a.
#[export] Instance outcome_bind : MBind outcome := λ A B f m,
  match m with
  | Ok a => f a
  | OutOfBounds i => OutOfBounds i
  | ShiftTooWide c => ShiftTooWide c
  end.

(** [x >> count] on an [int]: C defines it for [0 <= count < 32] only.
    (On x86 the instruction takes the count modulo 32: a shift by 32
    leaves [x] as it is.) *)
Definition shr (x count : Z) : outcome Z :=
  if (0 <=? count) && (count <? 32) then Ok (Z.shiftr x count)
  else ShiftTooWide count.

(** [buf[i]] as an rvalue. *)
Definition rd {A : Type} (buf : list A) (i : Z) : outcome A :=
  if 0 <=? i then
    match buf !! Z.to_nat i with
    | Some v => Ok v
    | None => OutOfBounds i
    end
  else OutOfBounds i.

(** [buf[i] = v]. *)
Definition wr {A : Type} (buf : list A) (i : Z) (v : A) : outcome (list A) :=
  if (0 <=? i) && (i <? Z.of_nat (length buf))
  then Ok (<[Z.to_nat i := v]> buf)
  else OutOfBounds i.

(** ** Counted loops *)

(** [count] iterations of [body] at [i], [i+1], ... *)
Fixpoint for_up {St : Type} (count : nat) (i : Z)
    (body : Z → St → outcome St) (s : St) : outcome St :=
  match count with
  | O => Ok s
  | S k => s' ← body i s; for_up k (i + 1) body s'
  end.

(** [count] iterations of [body] at [i], [i-1], ... *)
Fixpoint for_down {St : Type} (count : nat) (i : Z)
    (body : Z → St → outcome St) (s : St) : outcome St :=
  match count with
  | O => Ok s
  | S k => s' ← body i s; for_down k (i - 1) body s'
  end.

(** [for (i = lo; i <= hi; i++) body] *)
Definition for_range {St : Type} (lo hi : Z)
    (body : Z → St → outcome St) (s : St) : outcome St :=
  for_up (Z.to_nat (hi - lo + 1)) lo body s.

(** [for (i = hi; i >= lo; i--) body] *)
Definition for_range_rev {St : Type} (hi lo : Z)
    (body : Z → St → outcome St) (s : St) : outcome St :=
  for_down (Z.to_nat (hi - lo + 1)) hi body s.

(** ** [sort_insertion]

    The function only moves cells around and compares the integers they
    hold.  It is written over cells of any type [A] that carry an integer
    [val]; the C function is the instance [A := Z], [val := id].  Cells
    that carry more than the integer make the order in which equal
    integers are left observable. *)

Section Cells.
Context {A : Type} (val : A → Z).

(** The inner loop
    [while (j >= start_idx && arr[j] > key) { arr[j+1] = arr[j]; j = j-1; }].
    [j] drops by one per iteration and the loop stops below [start_idx],
    so [fuel = j - start_idx + 1] iterations are all it can make. *)
Fixpoint shift_right (fuel : nat) (start_idx : Z) (arr : list A) (j : Z)
    (key : A) : outcome (list A * Z) :=
  match fuel with
  | O => Ok (arr, j)
  | S fuel' =>
      if start_idx <=? j then
        aj ← rd arr j;
        if val aj >? val key then
          arr' ← wr arr (j + 1) aj;
          shift_right fuel' start_idx arr' (j - 1) key
        else Ok (arr, j)
      else Ok (arr, j)
  end.

Definition insertion_step (start_idx : Z) (i : Z) (arr : list A)
    : outcome (list A) :=
  key ← rd arr i;
  '(arr', j) ← shift_right (Z.to_nat (i - start_idx)) start_idx arr (i - 1) key;
  wr arr' (j + 1) key.

Definition sort_insertion_cells (arr : list A) (start_idx end_idx : Z)
    : outcome (list A) :=
  for_range (start_idx + 1) end_idx (insertion_step start_idx) arr.
End Cells.

Definition sort_insertion (arr : list Z) (start_idx end_idx : Z)
    : outcome (list Z) :=
  sort_insertion_cells (λ x, x) arr start_idx end_idx.

(** ** [sort_counting] *)

(** The buffers a worker is handed through [SortParams]. *)
Record bufs : Type := Bufs {
  ptr_to_arr : list Z;
  cnt_arr_local : list Z;
  cnt_arr_global : list Z;
  sorted_arr : list Z
}.

Definition set_arr (a : list Z) (b : bufs) : bufs :=
  Bufs a (cnt_arr_local b) (cnt_arr_global b) (sorted_arr b).
Definition set_local (l : list Z) (b : bufs) : bufs :=
  Bufs (ptr_to_arr b) l (cnt_arr_global b) (sorted_arr b).
Definition set_global (g : list Z) (b : bufs) : bufs :=
  Bufs (ptr_to_arr b) (cnt_arr_local b) g (sorted_arr b).
Definition set_sorted (o : list Z) (b : bufs) : bufs :=
  Bufs (ptr_to_arr b) (cnt_arr_local b) (cnt_arr_global b) o.

(** Byte [digit_exp] of [x]: the value of [(x >> (8 * digit_exp)) & 0xFF]
    for the digit positions of an [int], [0 <= digit_exp <= 3], where the
    shift is defined. *)
Definition digit_of (digit_exp x : Z) : Z :=
  Z.land (Z.shiftr x (8 * digit_exp)) 255.

(** [(x >> (8 * digit_exp)) & 0xFF] as the code evaluates it: from
    [digit_exp = 4] on the shift count is 32 or more. *)
Definition digit_at (digit_exp x : Z) : outcome Z :=
  s ← shr x (8 * digit_exp); Ok (Z.land s 255).

(** First loop: histogram of the chunk. *)
Definition count_step (digit_exp : Z) (i : Z) (b : bufs) : outcome bufs :=
  x ← rd (ptr_to_arr b) i;
  digit ← digit_at digit_exp x;
  c ← rd (cnt_arr_local b) digit;
  l ← wr (cnt_arr_local b) digit (Int32.add c 1);
  Ok (set_local l b).

(** Second loop: [cnt_arr_global[i] += cnt_arr_local[i]]. *)
Definition fold_step (i : Z) (b : bufs) : outcome bufs :=
  g ← rd (cnt_arr_global b) i;
  c ← rd (cnt_arr_local b) i;
  g' ← wr (cnt_arr_global b) i (Int32.add g c);
  Ok (set_global g' b).

(** Third loop: [cnt_arr_global[i] += cnt_arr_global[i-1]]. *)
Definition prefix_step (i : Z) (b : bufs) : outcome bufs :=
  g ← rd (cnt_arr_global b) i;
  p ← rd (cnt_arr_global b) (i - 1);
  g' ← wr (cnt_arr_global b) i (Int32.add g p);
  Ok (set_global g' b).

(** Fourth loop: scatter, from [end_idx] down to [start_idx]. *)
Definition scatter_step (digit_exp : Z) (i : Z) (b : bufs) : outcome bufs :=
  x ← rd (ptr_to_arr b) i;
  digit ← digit_at digit_exp x;
  g ← rd (cnt_arr_global b) digit;
  o ← wr (sorted_arr b) (Int32.sub g 1) x;
  g' ← wr (cnt_arr_global b) digit (Int32.sub g 1);
  Ok (set_global g' (set_sorted o b)).

(** Fifth loop: [arr[i] = sorted_arr[i - start_idx]]. *)
Definition copy_back_step (start_idx : Z) (i : Z) (b : bufs) : outcome bufs :=
  v ← rd (sorted_arr b) (i - start_idx);
  a ← wr (ptr_to_arr b) i v;
  Ok (set_arr a b).

(** The first four loops: histogram, fold, running sums, scatter. *)
Definition count_and_scatter (digit_exp start_idx end_idx : Z) (b : bufs)
    : outcome bufs :=
  b1 ← for_range start_idx end_idx (count_step digit_exp) b;
  b2 ← for_range 0 (RADIX - 1) fold_step b1;
  b3 ← for_range 1 (RADIX - 1) prefix_step b2;
  for_range_rev end_idx start_idx (scatter_step digit_exp) b3.

Definition copy_back (start_idx end_idx : Z) (b : bufs) : outcome bufs :=
  for_range start_idx end_idx (copy_back_step start_idx) b.

Definition sort_counting (b : bufs) (start_idx end_idx digit_exp : Z)
    : outcome bufs :=
  b4 ← count_and_scatter digit_exp start_idx end_idx b;
  copy_back start_idx end_idx b4.

(** The array a run leaves behind. *)
Definition ptr_to_arr_of (r : outcome bufs) : outcome (list Z) :=
  b ← r; Ok (ptr_to_arr b).

(** ** [sort_radix_thread] *)

Record SortParams : Type := Params {
  start_idx : Z;
  end_idx : Z;
  digit_exp : Z
}.

Definition chunk_len (p : SortParams) : Z :=
  Int32.add (Int32.sub (end_idx p) (start_idx p)) 1.

Definition sort_radix_thread (p : SortParams) (b : bufs) : outcome bufs :=
  let size := chunk_len p in
  if size <=? INSERTION_SORT_THRESHOLD then
    a ← sort_insertion (ptr_to_arr b) (start_idx p) (end_idx p);
    Ok (set_arr a b)
  else
    sort_counting b (start_idx p) (end_idx p) (digit_exp p).

(** ** [sort_radix] *)

(** [(n + MAX_THREADS - 1) / MAX_THREADS] *)
Definition chunk_size (n : Z) : Z :=
  Int32.div (Int32.sub (Int32.add n MAX_THREADS) 1) MAX_THREADS.

(** The parameters of worker [i]. *)
Definition chunk (n digit_exp i : Z) : SortParams :=
  {| start_idx := Int32.mul i (chunk_size n);
     end_idx := if i =? MAX_THREADS - 1 then Int32.sub n 1
                else Int32.sub (Int32.mul (i + 1) (chunk_size n)) 1;
     digit_exp := digit_exp |}.

(** [calloc(RADIX, sizeof(int))] *)
Definition calloc_counts : list Z := replicate (Z.to_nat RADIX) 0.

(** One iteration of the digit loop.  The eight workers are created in
    index order and each is run to completion before the next starts:
    one of the schedules the unsynchronised threads can take.  Every
    worker gets a fresh zeroed local histogram; the global histogram is
    zeroed again after the join. *)
Definition run_worker (n digit_exp : Z) (i : Z) (b : bufs) : outcome bufs :=
  sort_radix_thread (chunk n digit_exp i) (set_local calloc_counts b).

Definition run_pass (n digit_exp : Z) (b : bufs) : outcome bufs :=
  b' ← for_range 0 (MAX_THREADS - 1) (run_worker n digit_exp) b;
  Ok (set_global calloc_counts b').

(** The digit loop
    [for (digit_exp = 0; max_elem >> (8 * digit_exp) > 0; digit_exp++)].
    [bytes] counts the digit positions of an [int] that are left:
    [sort_radix] enters the loop with [bytes = 4] and [digit_exp = 0], so
    [bytes + digit_exp = 4] throughout.  With [bytes = 0] the test is
    evaluated at [digit_exp = 4]: it shifts [max_elem] by 32, [shr] has
    no result and the loop faults there, whatever [max_elem] is.  This is
    reached when [max_elem >= 2^24]; on x86 the test then holds at every
    [digit_exp] and the loop does not end. *)
Fixpoint pass_loop (bytes : nat) (n max_elem digit_exp : Z) (b : bufs)
    : outcome bufs :=
  match bytes with
  | O => _ ← shr max_elem (8 * digit_exp); Ok b
  | S bytes' =>
      s ← shr max_elem (8 * digit_exp);
      if s >? 0 then
        b' ← run_pass n digit_exp b;
        pass_loop bytes' n max_elem (digit_exp + 1) b'
      else Ok b
  end.

(** [max_elem = arr[0]; for (i = 1; i < n; i++) if (arr[i] > max_elem) ...] *)
Definition find_max (arr : list Z) (n : Z) : outcome Z :=
  m0 ← rd arr 0;
  for_range 1 (n - 1) (λ i m, x ← rd arr i; Ok (if x >? m then x else m)) m0.

(** [malloc(n * sizeof(int))]: the contents are indeterminate in C and are
    taken to be zeros. *)
Definition malloc_ints (n : Z) : list Z := replicate (Z.to_nat n) 0.

(** [arr] is the buffer the caller's pointer addresses, [n] the number of
    elements the caller asks to sort; the buffer may be longer than [n]. *)
Definition sort_radix (arr : list Z) (n : Z) : outcome (list Z) :=
  max_elem ← find_max arr n;
  let b := Bufs arr [] calloc_counts (malloc_ints n) in
  b' ← pass_loop 4 n max_elem 0 b;
  Ok (ptr_to_arr b').


(** * Specification vocabulary *)

Section InsertionSortSpec.
Context {A : Type} (val : A → Z).

Definition le_val (a b : A) : Prop := val a ≤ val b.

(** What the outer loop of [sort_insertion] has established once the
    first [k] cells of the range [seg] are processed: [srt] holds those
    [k] cells, in non-decreasing order of their integers, cells with
    equal integers in their original order. *)
Definition sorted_prefix (seg : list A) (k : nat) (srt : list A) : Prop :=
  length srt = k ∧
  StronglySorted le_val srt ∧
  srt ≡ₚ take k seg ∧
  ∀ v, filter (λ a, val a = v) srt = filter (λ a, val a = v) (take k seg).
End InsertionSortSpec.

Section CountingSortSpec.
Context (digit_exp : Z).

(** The elements of [l] whose digit is [lo], then those whose digit is
    [lo + 1], ... for [k] digit values, each group in the order of [l]. *)
Fixpoint buckets_from (k : nat) (lo : Z) (l : list Z) : list Z :=
  match k with
  | O => []
  | S k' => filter (λ x, digit_of digit_exp x = lo) l
            ++ buckets_from k' (lo + 1) l
  end.

(** The stable sort of [l] by digit. *)
Definition bucket_sort (l : list Z) : list Z :=
  buckets_from (Z.to_nat RADIX) 0 l.

(** The number of elements of [l] with a digit below [d]. *)
Definition bucket_base (l : list Z) (d : Z) : Z :=
  Z.of_nat (length (buckets_from (Z.to_nat d) 0 l)).

(** The number of elements with digit [d] among the first [i] of [l]. *)
Definition digit_count (l : list Z) (i d : Z) : Z :=
  Z.of_nat (length (filter (λ x, digit_of digit_exp x = d)
                           (take (Z.to_nat i) l))).

Definition le_digit (x y : Z) : Prop :=
  digit_of digit_exp x ≤ digit_of digit_exp y.
End CountingSortSpec.

(** The key that digit pass [d] of an LSD radix sort has sorted by: the
    digits [0 .. d] of [x], that is [x mod 2^(8(d+1))]. *)
Definition composite_key (d x : Z) : Z := x mod 2 ^ (8 * (d + 1)).

Definition le_key (d x y : Z) : Prop := composite_key d x ≤ composite_key d y.

(** The cells [start_idx .. end_idx] of an array. *)
Definition range_of (arr : list Z) (start_idx end_idx : Z) : list Z :=
  take (Z.to_nat (end_idx - start_idx + 1)) (drop (Z.to_nat start_idx) arr).

(** [sort_counting] on the whole array with freshly zeroed histograms, the
    way [sort_radix] hands a chunk to a worker. *)
Definition whole_array_pass (digit_exp : Z) (arr scratch : list Z)
    : outcome bufs :=
  sort_counting (Bufs arr calloc_counts calloc_counts scratch)
                0 (Z.of_nat (length arr) - 1) digit_exp.

(** A chunk-sized state seen as part of the full buffers: the array sits
    between [pre] and [post], the output buffer is followed by [rest]. *)
Definition embed_chunk (pre post rest : list Z) (b : bufs) : bufs :=
  Bufs (pre ++ ptr_to_arr b ++ post) (cnt_arr_local b) (cnt_arr_global b)
       (sorted_arr b ++ rest).

(** The ranges of workers [0 .. k-1] are each in non-decreasing order in
    [a]. *)
Definition chunks_sorted (n : Z) (a : list Z) (k : Z) : Prop :=
  ∀ j, 0 ≤ j < k →
       Sorted Z.le (range_of a (start_idx (chunk n 0 j)) (end_idx (chunk n 0 j))).

(** Every worker's range holds in [a] the elements it holds in [a0]. *)
Definition chunks_kept (n : Z) (a0 a : list Z) : Prop :=
  ∀ j, 0 ≤ j ≤ 7 →
       range_of a (start_idx (chunk n 0 j)) (end_idx (chunk n 0 j))
       ≡ₚ range_of a0 (start_idx (chunk n 0 j)) (end_idx (chunk n 0 j)).

(** * Properties *)

(** ** Outcomes, accesses and loops *)

Lemma bind_Ok {A B} (a : A) (f : A → outcome B) : (Ok a ≫= f) = f a.
Proof. reflexivity. Qed.

Lemma bind_Ok_inv {A B} (m : outcome A) (f : A → outcome B) (b : B) :
  m ≫= f = Ok b → ∃ a, m = Ok a ∧ f a = Ok b.
Proof. destruct m as [a|i|c]; [eauto | discriminate | discriminate]. Qed.

Lemma shr_defined (x count : Z) :
  0 ≤ count < 32 → shr x count = Ok (Z.shiftr x count).
Proof.
  intros [H0 H1]. unfold shr.
  apply Z.leb_le in H0. apply Z.ltb_lt in H1. by rewrite H0, H1.
Qed.

Lemma shr_undefined (x count : Z) :
  32 ≤ count → shr x count = ShiftTooWide count.
Proof.
  intros H. unfold shr. destruct (count <? 32) eqn:E.
  - apply Z.ltb_lt in E. lia.
  - by rewrite andb_false_r.
Qed.

Lemma digit_at_defined (digit_exp x : Z) :
  0 ≤ digit_exp ≤ 3 → digit_at digit_exp x = Ok (digit_of digit_exp x).
Proof.
  intros H. unfold digit_at. rewrite shr_defined by lia. reflexivity.
Qed.

Lemma rd_lookup {A} (buf : list A) (i : Z) (v : A) :
  rd buf i = Ok v ↔ 0 ≤ i ∧ buf !! Z.to_nat i = Some v.
Proof.
  unfold rd. destruct (0 <=? i) eqn:Hi.
  - apply Z.leb_le in Hi. destruct (buf !! Z.to_nat i); split.
    + intros [= ->]; auto.
    + intros [_ [= ->]]; auto.
    + discriminate.
    + intros [_ [=]].
  - apply Z.leb_gt in Hi. split; [discriminate | lia].
Qed.

Lemma rd_nat {A} (buf : list A) (k : nat) (v : A) :
  buf !! k = Some v → rd buf (Z.of_nat k) = Ok v.
Proof. intros H. apply rd_lookup. rewrite Nat2Z.id. split; [lia | done]. Qed.

Lemma rd_at {A} (pre : list A) (x : A) (post : list A) (i : Z) :
  i = Z.of_nat (length pre) → rd (pre ++ x :: post) i = Ok x.
Proof. intros ->. apply rd_nat. by apply list_lookup_middle. Qed.

Lemma wr_in {A} (buf : list A) (i : Z) (v : A) :
  0 ≤ i < Z.of_nat (length buf) → wr buf i v = Ok (<[Z.to_nat i := v]> buf).
Proof.
  intros [H0 H1]. unfold wr.
  apply Z.leb_le in H0. apply Z.ltb_lt in H1. by rewrite H0, H1.
Qed.

Lemma wr_inv {A} (buf buf' : list A) (i : Z) (v : A) :
  wr buf i v = Ok buf' →
  0 ≤ i < Z.of_nat (length buf) ∧ buf' = <[Z.to_nat i := v]> buf.
Proof.
  unfold wr. destruct (0 <=? i) eqn:H0; destruct (i <? _) eqn:H1;
    simpl; try discriminate.
  intros [= <-]. apply Z.leb_le in H0. apply Z.ltb_lt in H1. done.
Qed.

Lemma wr_at {A} (pre : list A) (x : A) (post : list A) (i : Z) (v : A) :
  i = Z.of_nat (length pre) →
  wr (pre ++ x :: post) i v = Ok (pre ++ v :: post).
Proof.
  intros ->. rewrite wr_in.
  - rewrite Nat2Z.id, insert_app_r_alt by lia.
    by replace (length pre - length pre)%nat with 0%nat by lia.
  - rewrite length_app. simpl. lia.
Qed.

Lemma for_up_inv {St} (Inv : Z → St → Prop) body (count : nat) (lo : Z) (s : St) :
  Inv lo s →
  (∀ i t, lo ≤ i < lo + Z.of_nat count → Inv i t →
          ∃ t', body i t = Ok t' ∧ Inv (i + 1) t') →
  ∃ s', for_up count lo body s = Ok s' ∧ Inv (lo + Z.of_nat count) s'.
Proof.
  revert lo s. induction count as [|k IH]; intros lo s H0 Hstep.
  - exists s. split; [done|]. by replace (lo + Z.of_nat 0) with lo by lia.
  - destruct (Hstep lo s) as (t & Hb & Ht); [lia | done |].
    destruct (IH (lo + 1) t) as (s' & Hs' & HI); [done | |].
    + intros i u Hi. apply Hstep. lia.
    + exists s'. simpl. rewrite Hb, bind_Ok. split; [done|].
      by replace (lo + Z.of_nat (S k)) with (lo + 1 + Z.of_nat k) by lia.
Qed.

Lemma for_down_inv {St} (Inv : Z → St → Prop) body (count : nat) (hi : Z) (s : St) :
  Inv hi s →
  (∀ i t, hi - Z.of_nat count < i ≤ hi → Inv i t →
          ∃ t', body i t = Ok t' ∧ Inv (i - 1) t') →
  ∃ s', for_down count hi body s = Ok s' ∧ Inv (hi - Z.of_nat count) s'.
Proof.
  revert hi s. induction count as [|k IH]; intros hi s H0 Hstep.
  - exists s. split; [done|]. by replace (hi - Z.of_nat 0) with hi by lia.
  - destruct (Hstep hi s) as (t & Hb & Ht); [lia | done |].
    destruct (IH (hi - 1) t) as (s' & Hs' & HI); [done | |].
    + intros i u Hi. apply Hstep. lia.
    + exists s'. simpl. rewrite Hb, bind_Ok. split; [done|].
      by replace (hi - Z.of_nat (S k)) with (hi - 1 - Z.of_nat k) by lia.
Qed.

Lemma for_range_inv {St} (Inv : Z → St → Prop) body (lo hi : Z) (s : St) :
  lo ≤ hi + 1 →
  Inv lo s →
  (∀ i t, lo ≤ i ≤ hi → Inv i t → ∃ t', body i t = Ok t' ∧ Inv (i + 1) t') →
  ∃ s', for_range lo hi body s = Ok s' ∧ Inv (hi + 1) s'.
Proof.
  intros Hle H0 Hstep. unfold for_range.
  destruct (for_up_inv Inv body (Z.to_nat (hi - lo + 1)) lo s) as (s' & ? & HI);
    [done | |].
  - intros i t Hi. apply Hstep. lia.
  - exists s'. split; [done|].
    by replace (hi + 1) with (lo + Z.of_nat (Z.to_nat (hi - lo + 1))) by lia.
Qed.

Lemma for_range_rev_inv {St} (Inv : Z → St → Prop) body (hi lo : Z) (s : St) :
  lo ≤ hi + 1 →
  Inv hi s →
  (∀ i t, lo ≤ i ≤ hi → Inv i t → ∃ t', body i t = Ok t' ∧ Inv (i - 1) t') →
  ∃ s', for_range_rev hi lo body s = Ok s' ∧ Inv (lo - 1) s'.
Proof.
  intros Hle H0 Hstep. unfold for_range_rev.
  destruct (for_down_inv Inv body (Z.to_nat (hi - lo + 1)) hi s) as (s' & ? & HI);
    [done | |].
  - intros i t Hi. apply Hstep. lia.
  - exists s'. split; [done|].
    by replace (lo - 1) with (hi - Z.of_nat (Z.to_nat (hi - lo + 1))) by lia.
Qed.

Lemma for_range_empty {St} body (lo hi : Z) (s : St) :
  hi < lo → for_range lo hi body s = Ok s.
Proof.
  intros H. unfold for_range.
  by replace (Z.to_nat (hi - lo + 1)) with 0%nat by lia.
Qed.

(** ** [sort_insertion] *)

Section InsertionSort.
Context {A : Type} (val : A → Z).

(** The inner loop on [pre ++ l ++ y :: post], scanning [l] from its
    right end: the cells of [l] above [key] move one slot to the right,
    and the loop stops at the rightmost cell that is not above [key]. *)
Lemma shift_right_spec (l : list A) :
  ∀ (pre : list A) (y : A) (post : list A) (key : A) (start : Z),
  start = Z.of_nat (length pre) →
  ∃ (L R : list A) (y' : A),
    l = L ++ R ∧
    Forall (λ a, val key < val a) R ∧
    (∀ L' a, L = L' ++ [a] → val a ≤ val key) ∧
    shift_right val (length l) start (pre ++ l ++ y :: post)
                (start + Z.of_nat (length l) - 1) key
    = Ok (pre ++ L ++ y' :: R ++ post, start + Z.of_nat (length L) - 1).
Proof.
  induction l as [|a l IH] using rev_ind; intros pre y post key start Hs.
  - exists [], [], y. split_and!; [done | constructor | | ].
    + intros L' a' HL. by destruct L'.
    + simpl. repeat f_equal.
  - rewrite length_app. simpl length.
    replace (length l + 1)%nat with (S (length l)) by lia.
    cbn [shift_right].
    replace (start + Z.of_nat (S (length l)) - 1)
      with (start + Z.of_nat (length l)) by lia.
    destruct (start <=? start + Z.of_nat (length l)) eqn:Hj;
      [|apply Z.leb_gt in Hj; lia].
    replace (pre ++ (l ++ [a]) ++ y :: post)
      with ((pre ++ l) ++ a :: y :: post)
      by (rewrite <- !app_assoc; reflexivity).
    rewrite (rd_at (pre ++ l) a) by (rewrite length_app; lia).
    rewrite bind_Ok.
    destruct (val a >? val key) eqn:Hcmp.
    + apply Z.gtb_lt in Hcmp.
      replace ((pre ++ l) ++ a :: y :: post)
        with (((pre ++ l) ++ [a]) ++ y :: post)
        by (rewrite <- !app_assoc; reflexivity).
      rewrite (wr_at ((pre ++ l) ++ [a]) y) by (rewrite !length_app; simpl; lia).
      rewrite bind_Ok.
      destruct (IH pre a (a :: post) key start Hs)
        as (L & R & y' & Hl & HR & HL & Hrun).
      exists L, (R ++ [a]), y'. split_and!.
      * rewrite Hl. by rewrite app_assoc.
      * apply Forall_app. split; [done|]. by repeat constructor.
      * done.
      * replace (((pre ++ l) ++ [a]) ++ a :: post)
          with (pre ++ l ++ a :: a :: post)
          by (rewrite <- !app_assoc; reflexivity).
        rewrite Hrun.
        replace (pre ++ L ++ y' :: (R ++ [a]) ++ post)
          with (pre ++ L ++ y' :: R ++ a :: post)
          by (rewrite <- !app_assoc; reflexivity).
        reflexivity.
    + assert (val a ≤ val key) by (rewrite Z.gtb_ltb in Hcmp; apply Z.ltb_ge in Hcmp; lia).
      exists (l ++ [a]), [], y. split_and!.
      * by rewrite app_nil_r.
      * constructor.
      * intros L' a' HL. apply app_inj_tail in HL as [_ ->]. done.
      * replace (pre ++ (l ++ [a]) ++ y :: [] ++ post)
          with ((pre ++ l) ++ a :: y :: post)
          by (rewrite <- !app_assoc; reflexivity).
        replace (start + Z.of_nat (length (l ++ [a])) - 1)
          with (start + Z.of_nat (length l))
          by (rewrite length_app; simpl; lia).
        reflexivity.
Qed.

(** One iteration of the outer loop inserts [x] into the cells [srt]
    to its left. *)
Lemma insertion_step_spec (pre srt : list A) (x : A) (post : list A)
    (start i : Z) :
  start = Z.of_nat (length pre) →
  i = start + Z.of_nat (length srt) →
  ∃ L R : list A,
    srt = L ++ R ∧
    Forall (λ a, val x < val a) R ∧
    (∀ L' a, L = L' ++ [a] → val a ≤ val x) ∧
    insertion_step val start i (pre ++ srt ++ x :: post)
    = Ok (pre ++ L ++ x :: R ++ post).
Proof.
  intros Hs Hi. unfold insertion_step.
  rewrite (app_assoc pre srt).
  rewrite (rd_at (pre ++ srt) x) by (rewrite length_app; lia).
  rewrite bind_Ok, <- app_assoc.
  destruct (shift_right_spec srt pre x post x start Hs)
    as (L & R & y' & Hl & HR & HL & Hrun).
  replace (Z.to_nat (i - start)) with (length srt) by lia.
  replace (i - 1) with (start + Z.of_nat (length srt) - 1) by lia.
  rewrite Hrun, bind_Ok.
  exists L, R. split_and!; try done.
  rewrite (app_assoc pre L).
  rewrite (wr_at (pre ++ L) y') by (rewrite length_app; lia).
  by rewrite <- app_assoc.
Qed.

Lemma insert_sorted (L R : list A) (x : A) :
  StronglySorted (le_val val) (L ++ R) →
  Forall (λ a, val x < val a) R →
  (∀ L' a, L = L' ++ [a] → val a ≤ val x) →
  StronglySorted (le_val val) (L ++ x :: R).
Proof.
  intros HS HR HL. apply StronglySorted_app in HS as (HLR & HSL & HSR).
  apply StronglySorted_app. split_and!; [ | done | ].
  - intros x1 x2 H1 H2.
    assert (val x1 ≤ val x) as Hx1.
    { destruct L as [|a L' _] using rev_ind; [by apply elem_of_nil in H1|].
      specialize (HL L' a eq_refl).
      apply elem_of_app in H1 as [H1|H1].
      - apply StronglySorted_app in HSL as (HLa & _ & _).
        specialize (HLa x1 a H1). unfold le_val in HLa.
        assert (a ∈ [a]) as Ha by apply list_elem_of_here.
        specialize (HLa Ha). lia.
      - apply list_elem_of_singleton in H1 as ->. done. }
    apply elem_of_cons in H2 as [->|H2]; [done|].
    rewrite Forall_forall in HR. specialize (HR x2 H2).
    unfold le_val. lia.
  - constructor; [done|].
    eapply Forall_impl; [exact HR|]. intros a Ha. unfold le_val. simpl in Ha. lia.
Qed.

Lemma filter_none (P : A → Prop) `{∀ a, Decision (P a)} (l : list A) :
  Forall (λ a, ¬ P a) l → filter P l = [].
Proof.
  induction 1 as [|a l Ha _ IH]; [done|]. by rewrite filter_cons_False.
Qed.

(** Cells holding the same integer as [x] all stay to its left. *)
Lemma insert_filter (L R : list A) (x : A) (v : Z) :
  Forall (λ a, val x < val a) R →
  filter (λ a, val a = v) (L ++ x :: R)
  = filter (λ a, val a = v) ((L ++ R) ++ [x]).
Proof.
  intros HR. rewrite !filter_app. rewrite <- app_assoc. f_equal.
  destruct (decide (val x = v)) as [Hx|Hx].
  - rewrite filter_cons_True by done.
    rewrite (filter_none _ R).
    + by rewrite (filter_cons_True _ x []).
    + eapply Forall_impl; [exact HR|]. intros a Ha. simpl in *. lia.
  - rewrite filter_cons_False by done.
    rewrite (filter_cons_False _ x []) by done.
    by rewrite filter_nil, app_nil_r.
Qed.

Lemma insert_perm (L R : list A) (x : A) :
  L ++ x :: R ≡ₚ (L ++ R) ++ [x].
Proof.
  rewrite <- Permutation_middle. rewrite <- Permutation_cons_append. done.
Qed.

Lemma sort_insertion_cells_spec (pre seg post : list A) (start end_ : Z) :
  start = Z.of_nat (length pre) →
  end_ = start + Z.of_nat (length seg) - 1 →
  seg ≠ [] →
  ∃ seg', sort_insertion_cells val (pre ++ seg ++ post) start end_
          = Ok (pre ++ seg' ++ post) ∧
          sorted_prefix val seg (length seg) seg'.
Proof.
  intros Hs He Hne. unfold sort_insertion_cells.
  assert (0 < length seg)%nat as Hlen by (destruct seg; [done | simpl; lia]).
  destruct (for_range_inv
    (λ i t, ∃ srt, t = pre ++ srt ++ drop (Z.to_nat (i - start)) seg ++ post ∧
                   sorted_prefix val seg (Z.to_nat (i - start)) srt)
    (insertion_step val start) (start + 1) end_ (pre ++ seg ++ post))
    as (t & Hrun & srt & Ht & Hsrt).
  - lia.
  - replace (Z.to_nat (start + 1 - start)) with 1%nat by lia.
    destruct seg as [|x0 seg0]; [done|].
    exists [x0]. split; [done|]. split_and!; try done.
    repeat constructor.
  - intros i t Hi (srt & -> & Hlsrt & HSS & Hperm & Hfil).
    set (k := Z.to_nat (i - start)) in *.
    destruct (lookup_lt_is_Some_2 seg k) as [x Hx]; [lia|].
    rewrite (drop_S seg x k Hx).
    destruct (insertion_step_spec pre srt x (drop (S k) seg ++ post) start i)
      as (L & R & HLR & HR & HL & Hstep); [done | lia |].
    exists (pre ++ (L ++ x :: R) ++ drop (S k) seg ++ post). split.
    + rewrite <- !app_assoc. simpl. exact Hstep.
    + exists (L ++ x :: R). split.
      * replace (Z.to_nat (i + 1 - start)) with (S k) by lia. done.
      * replace (Z.to_nat (i + 1 - start)) with (S k) by lia.
        unfold sorted_prefix. rewrite (take_S_r seg k x Hx). subst srt. split_and!.
        -- rewrite length_app in *. simpl. lia.
        -- by apply insert_sorted.
        -- rewrite insert_perm. by rewrite Hperm.
        -- intros v. rewrite insert_filter by done.
           rewrite (filter_app _ (L ++ R) [x]), (filter_app _ (take k seg) [x]).
           by rewrite Hfil.
  - exists srt. replace (Z.to_nat (end_ + 1 - start)) with (length seg) in * by lia.
    rewrite drop_all in Ht. simpl in Ht. by subst t.
Qed.
End InsertionSort.

Lemma sort_insertion_cells_noop {A} (val : A → Z) (cells : list A)
    (start_idx end_idx : Z) :
  end_idx ≤ start_idx →
  sort_insertion_cells val cells start_idx end_idx = Ok cells.
Proof. intros H. unfold sort_insertion_cells. apply for_range_empty. lia. Qed.

(** An in-bounds range [start_idx .. end_idx] splits the array in three. *)
Lemma split_range {A} (cells : list A) (start_idx end_idx : Z) :
  0 ≤ start_idx → start_idx ≤ end_idx → end_idx < Z.of_nat (length cells) →
  ∃ pre seg post,
    cells = pre ++ seg ++ post ∧
    Z.of_nat (length pre) = start_idx ∧
    Z.of_nat (length seg) = end_idx - start_idx + 1.
Proof.
  intros H0 H1 H2.
  exists (take (Z.to_nat start_idx) cells),
         (take (Z.to_nat (end_idx - start_idx + 1)) (drop (Z.to_nat start_idx) cells)),
         (drop (Z.to_nat (end_idx - start_idx + 1)) (drop (Z.to_nat start_idx) cells)).
  split_and!.
  - by rewrite !take_drop.
  - rewrite length_take. lia.
  - rewrite length_take, length_drop. lia.
Qed.

(** C7. For an in-bounds range [start_idx <= end_idx], [sort_insertion]
    succeeds and rearranges the cells of the range into a non-decreasing
    permutation of them in which cells holding equal integers keep their
    original order; the cells before and after the range are unchanged;
    and the call changes nothing when [start_idx >= end_idx].  The cells
    may carry more than their integer, which makes the order of equal
    integers observable; the integers themselves move exactly as in the
    [int] array of the C function. *)
Theorem sort_insertion_stable_sort {A} (val : A → Z) (cells : list A)
    (start_idx end_idx : Z) :
  0 ≤ start_idx →
  end_idx < Z.of_nat (length cells) →
  (end_idx ≤ start_idx →
     sort_insertion_cells val cells start_idx end_idx = Ok cells ∧
     sort_insertion (val <$> cells) start_idx end_idx = Ok (val <$> cells)) ∧
  (start_idx ≤ end_idx →
     ∃ pre seg seg' post,
       cells = pre ++ seg ++ post ∧
       Z.of_nat (length pre) = start_idx ∧
       Z.of_nat (length seg) = end_idx - start_idx + 1 ∧
       sort_insertion_cells val cells start_idx end_idx
         = Ok (pre ++ seg' ++ post) ∧
       sort_insertion (val <$> cells) start_idx end_idx
         = Ok (val <$> (pre ++ seg' ++ post)) ∧
       seg' ≡ₚ seg ∧
       Sorted (λ a b, val a ≤ val b) seg' ∧
       ∀ v, filter (λ a, val a = v) seg' = filter (λ a, val a = v) seg).
Proof.
  intros H0 H2. split.
  - intros Hle. split; apply sort_insertion_cells_noop; done.
  - intros H1.
    destruct (split_range cells start_idx end_idx) as (pre & seg & post & -> & Hp & Hs);
      [done..|].
    assert (seg ≠ []) as Hne by (destruct seg; [simpl in Hs; lia | done]).
    destruct (sort_insertion_cells_spec val pre seg post start_idx end_idx)
      as (seg' & Hrun & Hlen & HSS & Hperm & Hfil); [lia | lia | done |].
    rewrite firstn_all in Hperm, Hfil.
    exists pre, seg, seg', post. split_and!; try done.
    + unfold sort_insertion. rewrite !fmap_app.
      destruct (sort_insertion_cells_spec (λ x : Z, x)
                  (val <$> pre) (val <$> seg) (val <$> post) start_idx end_idx)
        as (vseg & Hvrun & Hvlen & HvSS & Hvperm & _).
      * rewrite length_fmap. lia.
      * rewrite length_fmap. lia.
      * destruct seg; done.
      * rewrite Hvrun. do 3 f_equal.
        rewrite firstn_all in Hvperm.
        apply (StronglySorted_unique Z.le); [exact HvSS | |].
        -- eapply StronglySorted_fmap; [|exact HSS]. intros x y Hxy. exact Hxy.
        -- rewrite Hvperm. by rewrite Hperm.
    + by apply StronglySorted_Sorted.
Qed.

(** Sorting the range [1 .. 4] of six tagged cells: the two cells holding
    3 keep their order. *)
Lemma sort_insertion_stable_sort_witness :
  ∃ seg', sort_insertion_cells fst [(5, 0); (3, 1); (9, 2); (1, 3); (3, 4); (7, 5)] 1 4
          = Ok ([(5, 0)] ++ seg' ++ [(7, 5)]) ∧
          filter (λ a : Z * Z, fst a = 3) seg' = [(3, 1); (3, 4)].
Proof.
  destruct (sort_insertion_stable_sort fst
              [(5, 0); (3, 1); (9, 2); (1, 3); (3, 4); (7, 5)] 1 4)
    as [_ H]; [lia | simpl; lia |].
  destruct H as (pre & seg & seg' & post & Hc & Hp & Hs & Hrun & _ & _ & _ & Hfil);
    [lia|].
  destruct pre as [|p0 [|p1 pre]]; simpl in Hp; try lia.
  injection Hc as <- Hc.
  do 4 (destruct seg as [|? seg]; simpl in Hs; try lia).
  destruct seg; simpl in Hs; try lia.
  injection Hc as <- <- <- <- <-.
  exists seg'. split; [exact Hrun|]. rewrite Hfil. reflexivity.
Defined.

(** ** Machine integers and digits *)

Lemma wrap_small (z : Z) :
  Int32.INT_MIN ≤ z ≤ Int32.INT_MAX → Int32.wrap z = z.
Proof.
  unfold Int32.INT_MIN, Int32.INT_MAX, Int32.wrap. intros H.
  rewrite Z.mod_small; lia.
Qed.

Lemma digit_of_range (digit_exp x : Z) : 0 ≤ digit_of digit_exp x < RADIX.
Proof.
  unfold digit_of, RADIX. change 255 with (Z.ones 8).
  rewrite Z.land_ones by lia. apply Z.mod_pos_bound. lia.
Qed.

Lemma rd_inv_bounds {A} (buf : list A) (i : Z) (v : A) :
  rd buf i = Ok v → 0 ≤ i < Z.of_nat (length buf).
Proof.
  intros H. apply rd_lookup in H as [H0 H]. apply lookup_lt_Some in H. lia.
Qed.

Lemma rd_in {A} (buf : list A) (i : Z) :
  0 ≤ i < Z.of_nat (length buf) → ∃ v, rd buf i = Ok v.
Proof.
  intros H. destruct (lookup_lt_is_Some_2 buf (Z.to_nat i)) as [v Hv]; [lia|].
  exists v. apply rd_lookup. split; [lia | done].
Qed.

Lemma rd_insert_eq {A} (buf : list A) (i : Z) (v : A) :
  0 ≤ i < Z.of_nat (length buf) → rd (<[Z.to_nat i := v]> buf) i = Ok v.
Proof.
  intros H. apply rd_lookup. split; [lia|].
  apply list_lookup_insert_eq. lia.
Qed.

Lemma rd_insert_ne {A} (buf : list A) (i j : Z) (v : A) :
  0 ≤ i → i ≠ j → rd (<[Z.to_nat i := v]> buf) j = rd buf j.
Proof.
  intros Hi Hne. unfold rd. destruct (0 <=? j) eqn:Hj; [|done].
  apply Z.leb_le in Hj. rewrite list_lookup_insert_ne by lia. done.
Qed.

Lemma rd_replicate {A} (n : nat) (x : A) (i : Z) :
  0 ≤ i < Z.of_nat n → rd (replicate n x) i = Ok x.
Proof.
  intros H. apply rd_lookup. split; [lia|].
  apply lookup_replicate_2. lia.
Qed.

(** ** The stable sort by digit *)

Section BucketSort.
Context (e : Z).

Local Abbreviation dig := (digit_of e).
Local Abbreviation has_digit d := (λ x : Z, digit_of e x = d).

Lemma buckets_from_snoc (k : nat) (lo : Z) (l : list Z) :
  buckets_from e (S k) lo l
  = buckets_from e k lo l ++ filter (has_digit (lo + Z.of_nat k)) l.
Proof.
  revert lo. induction k as [|k IH]; intros lo.
  - simpl. rewrite app_nil_r. by replace (lo + Z.of_nat 0) with lo by lia.
  - change (buckets_from e (S (S k)) lo l)
      with (filter (has_digit lo) l ++ buckets_from e (S k) (lo + 1) l).
    rewrite IH. simpl. rewrite <- app_assoc.
    by replace (lo + 1 + Z.of_nat k) with (lo + Z.of_nat (S k)) by lia.
Qed.

Lemma buckets_from_app (k1 k2 : nat) (lo : Z) (l : list Z) :
  buckets_from e (k1 + k2) lo l
  = buckets_from e k1 lo l ++ buckets_from e k2 (lo + Z.of_nat k1) l.
Proof.
  revert lo. induction k1 as [|k1 IH]; intros lo.
  - simpl. by replace (lo + Z.of_nat 0) with lo by lia.
  - simpl. rewrite IH, <- app_assoc.
    by replace (lo + 1 + Z.of_nat k1) with (lo + Z.of_nat (S k1)) by lia.
Qed.

Lemma buckets_from_cons (k : nat) (lo x : Z) (l : list Z) :
  buckets_from e k lo (x :: l)
  ≡ₚ (if decide (lo ≤ dig x < lo + Z.of_nat k) then [x] else [])
     ++ buckets_from e k lo l.
Proof.
  revert lo. induction k as [|k IH]; intros lo.
  - simpl. destruct (decide _); [lia | done].
  - simpl buckets_from. rewrite IH.
    destruct (decide (dig x = lo)) as [Hx|Hx].
    + rewrite filter_cons_True by done.
      rewrite decide_False by lia. rewrite decide_True by lia. done.
    + rewrite filter_cons_False by done.
      destruct (decide (lo + 1 ≤ dig x < lo + 1 + Z.of_nat k)).
      * rewrite decide_True by lia. simpl.
        by rewrite <- Permutation_middle.
      * rewrite decide_False by lia. done.
Qed.

Lemma bucket_sort_perm (l : list Z) : bucket_sort e l ≡ₚ l.
Proof.
  unfold bucket_sort. induction l as [|x l IH].
  - generalize (Z.to_nat RADIX) 0. intros k. induction k; intros lo; [done|].
    simpl. auto.
  - rewrite buckets_from_cons, IH.
    pose proof (digit_of_range e x). unfold RADIX in *.
    rewrite decide_True by lia. done.
Qed.

Lemma buckets_from_digits (k : nat) (lo : Z) (l : list Z) :
  Forall (λ x, lo ≤ dig x < lo + Z.of_nat k) (buckets_from e k lo l).
Proof.
  revert lo. induction k as [|k IH]; intros lo; [constructor|].
  simpl buckets_from. apply Forall_app. split.
  - apply Forall_forall. intros x Hx. apply list_elem_of_filter in Hx as [Hx _].
    lia.
  - eapply Forall_impl; [apply IH|]. intros x Hx. simpl in Hx. lia.
Qed.

Lemma same_digit_sorted (d : Z) (l : list Z) :
  StronglySorted (le_digit e) (filter (has_digit d) l).
Proof.
  induction l as [|x l IHl]; [constructor|].
  destruct (decide (dig x = d)) as [Hx|Hx].
  - rewrite filter_cons_True by done. constructor; [done|].
    apply Forall_forall. intros y Hy.
    apply list_elem_of_filter in Hy as [Hy _]. unfold le_digit. lia.
  - by rewrite filter_cons_False.
Qed.

Lemma buckets_from_sorted (k : nat) (lo : Z) (l : list Z) :
  StronglySorted (le_digit e) (buckets_from e k lo l).
Proof.
  revert lo. induction k as [|k IH]; intros lo; [constructor|].
  simpl buckets_from. apply StronglySorted_app. split_and!.
  - intros x1 x2 H1 H2. apply list_elem_of_filter in H1 as [H1 _].
    pose proof (buckets_from_digits k (lo + 1) l) as HF.
    rewrite Forall_forall in HF. specialize (HF x2 H2). simpl in HF.
    unfold le_digit. lia.
  - apply same_digit_sorted.
  - apply IH.
Qed.

Lemma filter_filter_digit (d d' : Z) (l : list Z) :
  filter (has_digit d) (filter (has_digit d') l)
  = if decide (d = d') then filter (has_digit d) l else [].
Proof.
  induction l as [|x l IH]; [by destruct (decide _)|].
  destruct (decide (dig x = d')) as [Hx|Hx].
  - rewrite (filter_cons_True (has_digit d')) by done.
    destruct (decide (d = d')) as [->|Hd].
    + rewrite !filter_cons_True by done. by rewrite IH.
    + rewrite filter_cons_False by (simpl; lia). done.
  - rewrite (filter_cons_False (has_digit d')) by done.
    destruct (decide (d = d')) as [->|Hd]; [|done].
    rewrite filter_cons_False by done. done.
Qed.

Lemma buckets_from_filter (d : Z) (k : nat) (lo : Z) (l : list Z) :
  filter (has_digit d) (buckets_from e k lo l)
  = if decide (lo ≤ d < lo + Z.of_nat k) then filter (has_digit d) l else [].
Proof.
  revert lo. induction k as [|k IH]; intros lo.
  - simpl. destruct (decide _); [lia | done].
  - simpl buckets_from. rewrite filter_app, IH, filter_filter_digit.
    destruct (decide (d = lo)) as [->|Hd].
    + rewrite decide_False by lia. rewrite decide_True by lia.
      by rewrite app_nil_r.
    + destruct (decide (lo + 1 ≤ d < lo + 1 + Z.of_nat k)).
      * rewrite decide_True by lia. done.
      * rewrite decide_False by lia. done.
Qed.

Lemma bucket_sort_filter (d : Z) (l : list Z) :
  filter (has_digit d) (bucket_sort e l) = filter (has_digit d) l.
Proof.
  unfold bucket_sort. rewrite buckets_from_filter.
  destruct (decide (0 ≤ d < 0 + Z.of_nat (Z.to_nat RADIX))); [done|].
  symmetry. apply filter_none. apply Forall_forall. intros x _ Hx.
  pose proof (digit_of_range e x). simpl in Hx. unfold RADIX in *. lia.
Qed.
End BucketSort.

(** ** Bucket positions *)

Section BucketPositions.
Context (e : Z) (l : list Z).

Local Abbreviation dig := (digit_of e).
Local Abbreviation has_digit d := (λ x : Z, digit_of e x = d).
Local Abbreviation n := (Z.of_nat (length l)).
Local Abbreviation base := (bucket_base e l).
Local Abbreviation upto := (digit_count e l).

Lemma digit_count_0 (d : Z) : upto 0 d = 0.
Proof. reflexivity. Qed.

Lemma digit_count_succ (i : Z) (x d : Z) :
  rd l i = Ok x →
  upto (i + 1) d = upto i d + (if decide (dig x = d) then 1 else 0).
Proof.
  intros Hx. apply rd_lookup in Hx as [Hi Hx]. unfold digit_count.
  replace (Z.to_nat (i + 1)) with (S (Z.to_nat i)) by lia.
  rewrite (take_S_r _ _ _ Hx), filter_app, length_app.
  destruct (decide (dig x = d)).
  - rewrite filter_cons_True by done. simpl. lia.
  - rewrite filter_cons_False by done. simpl. lia.
Qed.

Lemma digit_count_nonneg (i d : Z) : 0 ≤ upto i d.
Proof. unfold digit_count. lia. Qed.

Lemma digit_count_le_index (i d : Z) : upto i d ≤ Z.max 0 i.
Proof.
  unfold digit_count.
  pose proof (length_filter (has_digit d) (take (Z.to_nat i) l)) as H.
  rewrite length_take in H. lia.
Qed.

Lemma digit_count_le_total (i d : Z) : upto i d ≤ upto n d.
Proof.
  unfold digit_count. rewrite Nat2Z.id, firstn_all.
  rewrite <- (take_drop (Z.to_nat i) l) at 2.
  rewrite filter_app, length_app. lia.
Qed.

Lemma bucket_base_0 : base 0 = 0.
Proof. reflexivity. Qed.

Lemma bucket_base_succ (d : Z) :
  0 ≤ d → base (d + 1) = base d + upto n d.
Proof.
  intros Hd. unfold bucket_base, digit_count.
  replace (Z.to_nat (d + 1)) with (S (Z.to_nat d)) by lia.
  rewrite buckets_from_snoc, length_app, Nat2Z.id, firstn_all.
  replace (0 + Z.of_nat (Z.to_nat d)) with d by lia. lia.
Qed.

Lemma bucket_base_mono (d d' : Z) : 0 ≤ d ≤ d' → base d ≤ base d'.
Proof.
  intros H. unfold bucket_base.
  replace (Z.to_nat d') with (Z.to_nat d + Z.to_nat (d' - d))%nat by lia.
  rewrite buckets_from_app, length_app. lia.
Qed.

Lemma bucket_base_RADIX : base RADIX = n.
Proof.
  unfold bucket_base. fold (bucket_sort e l).
  by rewrite (bucket_sort_perm e l).
Qed.

Lemma bucket_base_bounds (d : Z) : 0 ≤ d ≤ RADIX → 0 ≤ base d ≤ n.
Proof.
  intros H. rewrite <- bucket_base_RADIX.
  split; [unfold bucket_base; lia | by apply bucket_base_mono].
Qed.

Lemma length_bucket_sort : Z.of_nat (length (bucket_sort e l)) = n.
Proof. by rewrite (bucket_sort_perm e l). Qed.

(** Every position below [n] lies in exactly one bucket. *)
Lemma find_bucket (p : Z) :
  0 ≤ p < n → ∃ d, 0 ≤ d < RADIX ∧ base d ≤ p < base (d + 1).
Proof.
  rewrite <- bucket_base_RADIX. intros [H0 H1].
  assert (∀ k : nat, p < base (Z.of_nat k) →
            ∃ d, 0 ≤ d < Z.of_nat k ∧ base d ≤ p < base (d + 1)) as Hk.
  { induction k as [|k IH]; intros Hp.
    - unfold bucket_base in Hp. simpl in Hp. lia.
    - destruct (decide (p < base (Z.of_nat k))) as [Hlt|Hge].
      + destruct (IH Hlt) as (d & Hd & Hb). exists d. split; [lia | done].
      + exists (Z.of_nat k). split; [lia|].
        replace (Z.of_nat k + 1) with (Z.of_nat (S k)) by lia. lia. }
  destruct (Hk (Z.to_nat RADIX)) as (d & Hd & Hb).
  - by replace (Z.of_nat (Z.to_nat RADIX)) with RADIX by (unfold RADIX; lia).
  - exists d. split; [unfold RADIX in *; lia | done].
Qed.

(** The element at index [i] of [l] lands, in the stable sort by digit,
    at the base of its bucket plus the number of elements with the same
    digit before it. *)
Lemma lookup_bucket_sort (i x : Z) :
  rd l i = Ok x →
  rd (bucket_sort e l) (base (dig x) + upto i (dig x)) = Ok x.
Proof.
  intros Hx. apply rd_lookup in Hx as [Hi Hx].
  pose proof (digit_of_range e x) as Hd. unfold RADIX in Hd.
  apply rd_lookup. split; [unfold bucket_base, digit_count; lia|].
  unfold bucket_sort, bucket_base, digit_count.
  replace (Z.to_nat RADIX)
    with (Z.to_nat (dig x) + S (Z.to_nat (RADIX - dig x - 1)))%nat
    by (unfold RADIX; lia).
  rewrite buckets_from_app. simpl buckets_from.
  replace (0 + Z.of_nat (Z.to_nat (dig x))) with (dig x) by lia.
  rewrite Z2Nat.inj_add, !Nat2Z.id by lia.
  rewrite lookup_app_r by lia.
  replace (length (buckets_from e (Z.to_nat (dig x)) 0 l)
           + length (filter (has_digit (dig x)) (take (Z.to_nat i) l))
           - length (buckets_from e (Z.to_nat (dig x)) 0 l))%nat
    with (length (filter (has_digit (dig x)) (take (Z.to_nat i) l))) by lia.
  rewrite <- (take_drop_middle l (Z.to_nat i) x Hx) at 2.
  rewrite filter_app, filter_cons_True by done.
  rewrite <- app_assoc. simpl. by apply list_lookup_middle.
Qed.
End BucketPositions.

(** ** The five loops of [sort_counting] on the whole array *)

Section CountingSortLoops.
Context (e : Z) (l : list Z).
Hypothesis He : 0 ≤ e ≤ 3.
Hypothesis Hfit : Z.of_nat (length l) ≤ Int32.INT_MAX.

Local Abbreviation dig := (digit_of e).
Local Abbreviation n := (Z.of_nat (length l)).
Local Abbreviation base := (bucket_base e l).
Local Abbreviation upto := (digit_count e l).

Lemma add_small (a b : Z) : 0 ≤ a → 0 ≤ b → a + b ≤ n → Int32.add a b = a + b.
Proof.
  intros. unfold Int32.add. apply wrap_small.
  unfold Int32.INT_MIN, Int32.INT_MAX in *. lia.
Qed.

Lemma sub_small (a : Z) : 0 < a ≤ n → Int32.sub a 1 = a - 1.
Proof.
  intros. unfold Int32.sub. apply wrap_small.
  unfold Int32.INT_MIN, Int32.INT_MAX in *. lia.
Qed.

(** First loop: the local histogram counts each digit of [l]. *)
Lemma count_loop_spec (loc0 g o : list Z) :
  (∀ d, 0 ≤ d < RADIX → rd loc0 d = Ok 0) →
  ∃ loc, for_range 0 (n - 1) (count_step e) (Bufs l loc0 g o)
         = Ok (Bufs l loc g o) ∧
         ∀ d, 0 ≤ d < RADIX → rd loc d = Ok (upto n d).
Proof.
  intros Hz.
  destruct (for_range_inv
    (λ i b, ∃ loc, b = Bufs l loc g o ∧
                   ∀ d, 0 ≤ d < RADIX → rd loc d = Ok (upto i d))
    (count_step e) 0 (n - 1) (Bufs l loc0 g o))
    as (b & Hrun & loc & -> & Hloc).
  - lia.
  - exists loc0. split; [done|]. intros d Hd. by rewrite Hz.
  - intros i b Hi (loc & -> & Hloc).
    destruct (rd_in l i) as [x Hx]; [lia|].
    pose proof (digit_of_range e x) as Hd.
    unfold count_step. simpl. rewrite Hx, bind_Ok.
    rewrite digit_at_defined, bind_Ok by exact He.
    rewrite (Hloc _ Hd), bind_Ok.
    pose proof (rd_inv_bounds _ _ _ (Hloc _ Hd)) as Hb.
    rewrite wr_in by done. rewrite bind_Ok.
    eexists. split; [reflexivity|].
    eexists. split; [reflexivity|].
    intros d' Hd'. rewrite (digit_count_succ e l i x d' Hx).
    pose proof (digit_count_nonneg e l i (dig x)).
    pose proof (digit_count_le_index e l i (dig x)).
    rewrite add_small by lia.
    destruct (decide (dig x = d')) as [<-|Hne].
    + by rewrite rd_insert_eq.
    + rewrite rd_insert_ne by lia. rewrite Hloc by done. f_equal. lia.
  - exists loc. split; [done|].
    by replace (n - 1 + 1) with n in Hloc by lia.
Qed.

(** Second loop: a zeroed global histogram receives the local one. *)
Lemma fold_loop_spec (loc g0 o : list Z) :
  (∀ d, 0 ≤ d < RADIX → rd loc d = Ok (upto n d)) →
  (∀ d, 0 ≤ d < RADIX → rd g0 d = Ok 0) →
  ∃ g, for_range 0 (RADIX - 1) fold_step (Bufs l loc g0 o)
       = Ok (Bufs l loc g o) ∧
       ∀ d, 0 ≤ d < RADIX → rd g d = Ok (upto n d).
Proof.
  intros Hloc Hz.
  destruct (for_range_inv
    (λ i b, ∃ g, b = Bufs l loc g o ∧
                 ∀ d, 0 ≤ d < RADIX →
                      rd g d = Ok (if decide (d < i) then upto n d else 0))
    fold_step 0 (RADIX - 1) (Bufs l loc g0 o))
    as (b & Hrun & g & -> & Hg).
  - unfold RADIX. lia.
  - exists g0. split; [done|]. intros d Hd.
    rewrite decide_False by lia. by apply Hz.
  - intros i b Hi (g & -> & Hg).
    assert (0 ≤ i < RADIX) as Hi' by lia.
    unfold fold_step. simpl.
    rewrite (Hg _ Hi'), bind_Ok, (Hloc _ Hi'), bind_Ok.
    rewrite decide_False by lia.
    pose proof (rd_inv_bounds _ _ _ (Hg _ Hi')) as Hb.
    rewrite wr_in by done. rewrite bind_Ok.
    eexists. split; [reflexivity|].
    eexists. split; [reflexivity|].
    intros d Hd.
    pose proof (digit_count_nonneg e l n i).
    pose proof (digit_count_le_index e l n i).
    rewrite add_small by lia.
    destruct (decide (i = d)) as [<-|Hne].
    + rewrite rd_insert_eq by done. rewrite decide_True by lia. done.
    + rewrite rd_insert_ne by lia. rewrite Hg by done.
      destruct (decide (d < i)).
      * rewrite decide_True by lia. done.
      * rewrite decide_False by lia. done.
  - exists g. split; [done|]. intros d Hd. rewrite Hg by done.
    rewrite decide_True by lia. done.
Qed.

(** Third loop: running sums; entry [d] becomes the end of bucket [d]. *)
Lemma prefix_loop_spec (loc g0 o : list Z) :
  (∀ d, 0 ≤ d < RADIX → rd g0 d = Ok (upto n d)) →
  ∃ g, for_range 1 (RADIX - 1) prefix_step (Bufs l loc g0 o)
       = Ok (Bufs l loc g o) ∧
       ∀ d, 0 ≤ d < RADIX → rd g d = Ok (base (d + 1)).
Proof.
  intros Hg0.
  destruct (for_range_inv
    (λ i b, ∃ g, b = Bufs l loc g o ∧
                 ∀ d, 0 ≤ d < RADIX →
                      rd g d = Ok (if decide (d < i) then base (d + 1)
                                   else upto n d))
    prefix_step 1 (RADIX - 1) (Bufs l loc g0 o))
    as (b & Hrun & g & -> & Hg).
  - unfold RADIX. lia.
  - exists g0. split; [done|]. intros d Hd. rewrite Hg0 by done.
    destruct (decide (d < 1)); [|done].
    replace d with 0 by lia.
    by rewrite (bucket_base_succ e l 0), bucket_base_0 by lia.
  - intros i b Hi (g & -> & Hg).
    assert (0 ≤ i < RADIX) as Hi' by lia.
    assert (0 ≤ i - 1 < RADIX) as Hp by lia.
    unfold prefix_step. simpl.
    rewrite (Hg _ Hi'), bind_Ok, (Hg _ Hp), bind_Ok.
    rewrite decide_False by lia. rewrite decide_True by lia.
    pose proof (rd_inv_bounds _ _ _ (Hg _ Hi')) as Hb.
    rewrite wr_in by done. rewrite bind_Ok.
    eexists. split; [reflexivity|].
    eexists. split; [reflexivity|].
    intros d Hd.
    replace (i - 1 + 1) with i by lia.
    pose proof (digit_count_nonneg e l n i).
    pose proof (bucket_base_succ e l i ltac:(lia)) as Hs.
    pose proof (bucket_base_bounds e l i ltac:(lia)).
    pose proof (bucket_base_bounds e l (i + 1) ltac:(lia)).
    rewrite add_small by lia.
    destruct (decide (i = d)) as [<-|Hne].
    + rewrite rd_insert_eq by done. rewrite decide_True by lia.
      f_equal. lia.
    + rewrite rd_insert_ne by lia. rewrite Hg by done.
      destruct (decide (d < i)).
      * rewrite decide_True by lia. done.
      * rewrite decide_False by lia. done.
  - exists g. split; [done|]. intros d Hd. rewrite Hg by done.
    rewrite decide_True by lia. done.
Qed.

(** Fourth loop: walking [l] from its last element to its first, each
    element is stored just below the elements of its bucket stored so
    far; the output buffer ends up holding the stable sort by digit. *)
Lemma scatter_loop_spec (loc g0 o0 : list Z) :
  (∀ d, 0 ≤ d < RADIX → rd g0 d = Ok (base (d + 1))) →
  length o0 = length l →
  ∃ g, for_range_rev (n - 1) 0 (scatter_step e) (Bufs l loc g0 o0)
       = Ok (Bufs l loc g (bucket_sort e l)) ∧
       ∀ d, 0 ≤ d < RADIX → rd g d = Ok (base d).
Proof.
  intros Hg0 Hlen.
  destruct (for_range_rev_inv
    (λ i b, ∃ g o, b = Bufs l loc g o ∧ length o = length l ∧
              (∀ d, 0 ≤ d < RADIX → rd g d = Ok (base d + upto (i + 1) d)) ∧
              (∀ d p, 0 ≤ d < RADIX →
                      base d + upto (i + 1) d ≤ p < base (d + 1) →
                      rd o p = rd (bucket_sort e l) p))
    (scatter_step e) (n - 1) 0 (Bufs l loc g0 o0))
    as (b & Hrun & g & o & -> & Hlo & Hg & Ho).
  - lia.
  - exists g0, o0. split_and!; [done | done | |].
    + intros d Hd. rewrite Hg0 by done. f_equal.
      replace (n - 1 + 1) with n by lia.
      apply bucket_base_succ. lia.
    + intros d p Hd Hp. replace (n - 1 + 1) with n in Hp by lia.
      rewrite (bucket_base_succ e l d) in Hp by lia. lia.
  - intros i b Hi (g & o & -> & Hlo & Hg & Ho).
    destruct (rd_in l i) as [x Hx]; [lia|].
    pose proof (digit_of_range e x) as Hd.
    pose proof (digit_count_succ e l i x (dig x) Hx) as Hsucc.
    rewrite decide_True in Hsucc by done.
    pose proof (digit_count_nonneg e l i (dig x)).
    pose proof (digit_count_le_total e l (i + 1) (dig x)).
    pose proof (bucket_base_succ e l (dig x) ltac:(lia)) as Hbs.
    pose proof (bucket_base_bounds e l (dig x) ltac:(lia)).
    pose proof (bucket_base_bounds e l (dig x + 1) ltac:(lia)).
    unfold scatter_step. simpl. rewrite Hx, bind_Ok.
    rewrite digit_at_defined, bind_Ok by exact He.
    rewrite (Hg _ Hd), bind_Ok.
    rewrite sub_small by lia.
    rewrite (wr_in o) by lia. rewrite bind_Ok. simpl.
    pose proof (rd_inv_bounds _ _ _ (Hg _ Hd)) as Hb.
    rewrite (wr_in g) by done. rewrite bind_Ok.
    eexists. split; [reflexivity|].
    eexists _, _. split; [reflexivity|].
    replace (i - 1 + 1) with i by lia.
    simpl. split_and!.
    + by rewrite length_insert.
    + intros d' Hd'.
      destruct (decide (dig x = d')) as [<-|Hne].
      * rewrite rd_insert_eq by done. f_equal. lia.
      * rewrite rd_insert_ne by lia. rewrite Hg by done.
        rewrite (digit_count_succ e l i x d' Hx).
        rewrite decide_False by done. f_equal. lia.
    + intros d' p Hd' Hp.
      destruct (decide (base (dig x) + upto (i + 1) (dig x) - 1 = p))
        as [<-|Hne].
      * rewrite rd_insert_eq by lia.
        replace (base (dig x) + upto (i + 1) (dig x) - 1)
          with (base (dig x) + upto i (dig x)) by lia.
        symmetry. by apply lookup_bucket_sort.
      * rewrite rd_insert_ne by lia. apply (Ho d' p Hd').
        rewrite (digit_count_succ e l i x d' Hx).
        destruct (decide (dig x = d')) as [<-|Hdd]; lia.
  - replace (0 - 1 + 1) with 0 in * by lia.
    assert (o = bucket_sort e l) as ->.
    { apply list_eq. intros k.
      destruct (decide (k < length l)%nat) as [Hk|Hk].
      - destruct (find_bucket e l (Z.of_nat k)) as (d & Hd & Hb); [lia|].
        specialize (Ho d (Z.of_nat k) Hd).
        rewrite digit_count_0 in Ho. specialize (Ho ltac:(lia)).
        unfold rd in Ho. rewrite Nat2Z.id in Ho.
        destruct (0 <=? Z.of_nat k) eqn:H0; [|apply Z.leb_gt in H0; lia].
        destruct (o !! k) eqn:E1; destruct (bucket_sort e l !! k) eqn:E2;
          congruence.
      - pose proof (length_bucket_sort e l).
        rewrite !lookup_ge_None_2 by lia. done. }
    exists g. split; [done|]. intros d Hd. rewrite Hg by done.
    rewrite digit_count_0. f_equal. lia.
Qed.
End CountingSortLoops.

(** Fifth loop: the first [end_idx - start_idx + 1] cells of the output
    buffer replace cells [start_idx .. end_idx] of the array. *)
Lemma copy_back_spec (a loc g o : list Z) (start_idx end_idx : Z) :
  0 ≤ start_idx → start_idx ≤ end_idx + 1 →
  end_idx < Z.of_nat (length a) →
  end_idx - start_idx < Z.of_nat (length o) →
  copy_back start_idx end_idx (Bufs a loc g o)
  = Ok (Bufs (take (Z.to_nat start_idx) a
              ++ take (Z.to_nat (end_idx - start_idx + 1)) o
              ++ drop (Z.to_nat (end_idx + 1)) a) loc g o).
Proof.
  intros H0 H1 H2 H3. unfold copy_back.
  destruct (for_range_inv
    (λ i b, b = Bufs (take (Z.to_nat start_idx) a
                      ++ take (Z.to_nat (i - start_idx)) o
                      ++ drop (Z.to_nat i) a) loc g o)
    (copy_back_step start_idx) start_idx end_idx (Bufs a loc g o))
    as (b & Hrun & ->).
  - lia.
  - replace (Z.to_nat (start_idx - start_idx)) with 0%nat by lia.
    simpl. by rewrite take_drop.
  - intros i b Hi ->.
    destruct (lookup_lt_is_Some_2 o (Z.to_nat (i - start_idx))) as [v Hv]; [lia|].
    destruct (lookup_lt_is_Some_2 a (Z.to_nat i)) as [y Hy]; [lia|].
    unfold copy_back_step. simpl.
    rewrite (proj2 (rd_lookup o (i - start_idx) v)) by (split; [lia | done]).
    rewrite bind_Ok.
    rewrite (drop_S a y (Z.to_nat i) Hy).
    rewrite app_assoc.
    rewrite wr_at by (rewrite length_app, !length_take; lia).
    rewrite bind_Ok. eexists. split; [reflexivity|].
    unfold set_arr. simpl. f_equal.
    replace (Z.to_nat (i + 1 - start_idx)) with (S (Z.to_nat (i - start_idx))) by lia.
    replace (Z.to_nat (i + 1)) with (S (Z.to_nat i)) by lia.
    rewrite (take_S_r o _ v Hv). rewrite <- !app_assoc. done.
  - rewrite Hrun.
    by replace (end_idx + 1 - start_idx) with (end_idx - start_idx + 1) by lia.
Qed.

(** ** [sort_counting] *)

Lemma rd_calloc_counts (d : Z) : 0 ≤ d < RADIX → rd calloc_counts d = Ok 0.
Proof. intros H. apply rd_replicate. unfold RADIX in *. lia. Qed.

(** On the whole array, with zeroed histograms, [sort_counting] leaves the
    stable sort by digit in both the array and the output buffer. *)
Lemma sort_counting_bucket_sort (arr scratch : list Z) (digit_exp : Z) :
  0 ≤ digit_exp ≤ 3 →
  Z.of_nat (length arr) ≤ Int32.INT_MAX →
  length scratch = length arr →
  ∃ loc g,
    sort_counting (Bufs arr calloc_counts calloc_counts scratch)
                  0 (Z.of_nat (length arr) - 1) digit_exp
    = Ok (Bufs (bucket_sort digit_exp arr) loc g (bucket_sort digit_exp arr)).
Proof.
  intros He Hfit Hlen. unfold sort_counting, count_and_scatter.
  destruct (count_loop_spec digit_exp arr He Hfit calloc_counts calloc_counts scratch)
    as (loc & -> & Hloc); [apply rd_calloc_counts|].
  rewrite bind_Ok.
  destruct (fold_loop_spec digit_exp arr Hfit loc calloc_counts scratch)
    as (g1 & -> & Hg1); [done | apply rd_calloc_counts |].
  rewrite bind_Ok.
  destruct (prefix_loop_spec digit_exp arr Hfit loc g1 scratch)
    as (g2 & -> & Hg2); [done|].
  rewrite bind_Ok.
  destruct (scatter_loop_spec digit_exp arr He Hfit loc g2 scratch)
    as (g3 & -> & Hg3); [done | done |].
  rewrite bind_Ok.
  pose proof (length_bucket_sort digit_exp arr) as HT.
  rewrite copy_back_spec by lia.
  exists loc, g3. do 2 f_equal.
  replace (Z.to_nat 0) with 0%nat by lia. simpl.
  rewrite drop_ge, app_nil_r by lia. apply take_ge. lia.
Qed.

(** C10 (as amended). On an array of [n] integers, with zeroed local and
    global histograms of 256 counters and a scratch buffer of length [n],
    for each of the four digit positions of an [int], [0 <= digit_exp <= 3],
    [sort_counting arr 0 (n-1) digit_exp] succeeds and leaves in [arr] a
    permutation of its contents that is non-decreasing in the digit
    [(x >> (8 * digit_exp)) & 0xFF], elements with the same digit in their
    original order. *)
Theorem sort_counting_full_range (arr scratch : list Z) (digit_exp : Z) :
  0 ≤ digit_exp ≤ 3 →
  Z.of_nat (length arr) ≤ Int32.INT_MAX →
  length scratch = length arr →
  ∃ b', sort_counting (Bufs arr calloc_counts calloc_counts scratch)
                      0 (Z.of_nat (length arr) - 1) digit_exp = Ok b' ∧
        ptr_to_arr b' ≡ₚ arr ∧
        Sorted (le_digit digit_exp) (ptr_to_arr b') ∧
        ∀ d, filter (λ x, digit_of digit_exp x = d) (ptr_to_arr b')
             = filter (λ x, digit_of digit_exp x = d) arr.
Proof.
  intros He Hfit Hlen.
  destruct (sort_counting_bucket_sort arr scratch digit_exp He Hfit Hlen)
    as (loc & g & Hrun).
  eexists. split; [exact Hrun|]. simpl. split_and!.
  - apply bucket_sort_perm.
  - apply StronglySorted_Sorted, buckets_from_sorted.
  - intros d. apply bucket_sort_filter.
Qed.

(** Six elements sorted by their low byte: the three elements with low
    byte 1 keep their order. *)
Lemma sort_counting_full_range_witness :
  ∃ b', sort_counting (Bufs [513; 2; 257; 1; 256; 3] calloc_counts calloc_counts
                            [7; 7; 7; 7; 7; 7]) 0 5 0 = Ok b' ∧
        filter (λ x, digit_of 0 x = 1) (ptr_to_arr b') = [513; 257; 1].
Proof.
  destruct (sort_counting_full_range [513; 2; 257; 1; 256; 3] [7; 7; 7; 7; 7; 7] 0)
    as (b' & Hrun & _ & _ & Hfil).
  - lia.
  - unfold Int32.INT_MAX. simpl. lia.
  - reflexivity.
  - exists b'. split; [exact Hrun|]. rewrite Hfil. reflexivity.
Defined.

(** C10 as stated, for every [digit_exp >= 0], does not hold: at
    [digit_exp = 4] the digit expression shifts an [int] by 32, which C
    leaves undefined, and the call has no defined result.  (Compiled for
    x86 the shift leaves the element as it is and the call sorts by the
    low byte, not by the digit of position 4, which is 0 for every
    non-negative [int]: [513, 2, 257, 1, 256, 3] comes out as
    [256, 513, 257, 1, 2, 3].) *)
Lemma sort_counting_full_range_counterexample :
  ¬ (∀ (arr scratch : list Z) (digit_exp : Z),
       1 ≤ Z.of_nat (length arr) ≤ Int32.INT_MAX →
       Forall (λ x, 0 ≤ x ≤ Int32.INT_MAX) arr →
       0 ≤ digit_exp →
       length scratch = length arr →
       ∃ b', sort_counting (Bufs arr calloc_counts calloc_counts scratch)
                           0 (Z.of_nat (length arr) - 1) digit_exp = Ok b' ∧
             ptr_to_arr b' ≡ₚ arr ∧
             Sorted (le_digit digit_exp) (ptr_to_arr b') ∧
             ∀ d, filter (λ x, digit_of digit_exp x = d) (ptr_to_arr b')
                  = filter (λ x, digit_of digit_exp x = d) arr).
Proof.
  intros H.
  destruct (H [513; 2; 257; 1; 256; 3] [7; 7; 7; 7; 7; 7] 4) as (b' & Hrun & _).
  - unfold Int32.INT_MAX. simpl. lia.
  - unfold Int32.INT_MAX. repeat constructor; lia.
  - lia.
  - reflexivity.
  - vm_compute in Hrun. discriminate.
Qed.

(** C4 (as amended). Once the scatter loop has run, the copy-back loop
    succeeds on an in-bounds range and stores the first
    [end_idx - start_idx + 1] cells of the output buffer in
    [arr[start_idx .. end_idx]]: for every [i] in [start_idx, end_idx] the
    final array has [arr[i] = sorted_arr[i - start_idx]].  The output
    buffer and the rest of the array are unchanged. *)
Theorem sort_counting_copy_back (b b4 : bufs) (start_idx end_idx digit_exp : Z) :
  count_and_scatter digit_exp start_idx end_idx b = Ok b4 →
  0 ≤ start_idx →
  end_idx < Z.of_nat (length (ptr_to_arr b4)) →
  end_idx - start_idx < Z.of_nat (length (sorted_arr b4)) →
  ∃ b', sort_counting b start_idx end_idx digit_exp = Ok b' ∧
        sorted_arr b' = sorted_arr b4 ∧
        (∀ i, start_idx ≤ i ≤ end_idx →
              ∃ v, rd (sorted_arr b4) (i - start_idx) = Ok v ∧
                   rd (ptr_to_arr b') i = Ok v) ∧
        (∀ i, ¬ (start_idx ≤ i ≤ end_idx) →
              rd (ptr_to_arr b') i = rd (ptr_to_arr b4) i).
Proof.
  intros Hscat H0 Ha Ho. unfold sort_counting. rewrite Hscat, bind_Ok.
  destruct b4 as [a loc g o]. simpl in *.
  destruct (decide (end_idx < start_idx)) as [Hempty|Hrange].
  - exists (Bufs a loc g o). split_and!; [by apply for_range_empty | done | |done].
    intros i Hi. lia.
  - rewrite copy_back_spec by lia. eexists. split; [reflexivity|]. simpl.
    split_and!; [done | |].
    + intros i Hi. destruct (rd_in o (i - start_idx)) as [v Hv]; [lia|].
      exists v. split; [done|]. apply rd_lookup in Hv as [_ Hv].
      apply rd_lookup. split; [lia|].
      rewrite lookup_app_r by (rewrite length_take; lia).
      rewrite length_take.
      rewrite lookup_app_l by (rewrite length_take; lia).
      rewrite lookup_take_lt by lia.
      by replace (Z.to_nat i - Z.to_nat start_idx `min` length a)%nat
        with (Z.to_nat (i - start_idx)) by lia.
    + intros i Hi. unfold rd. destruct (0 <=? i) eqn:Hi0; [|done].
      apply Z.leb_le in Hi0.
      destruct (decide (i < start_idx)) as [Hlt|Hge].
      * rewrite lookup_app_l by (rewrite length_take; lia).
        by rewrite lookup_take_lt by lia.
      * rewrite lookup_app_r by (rewrite length_take; lia).
        rewrite lookup_app_r by (rewrite !length_take; lia).
        rewrite lookup_drop, !length_take.
        by replace (Z.to_nat (end_idx + 1) +
                 (Z.to_nat i - Z.to_nat start_idx `min` length a -
                  Z.to_nat (end_idx - start_idx + 1) `min` length o))%nat
          with (Z.to_nat i) by lia.
Qed.

(** On the range [1 .. 2] of a three-element array, [arr[1]] receives
    [sorted_arr[0]]. *)
Lemma sort_counting_copy_back_witness :
  ∃ b', sort_counting (Bufs [9; 2; 1] calloc_counts calloc_counts [7; 7; 7]) 1 2 0
        = Ok b' ∧
        rd (ptr_to_arr b') 1 = Ok 1 ∧ rd (sorted_arr b') 0 = Ok 1.
Proof.
  destruct (sort_counting (Bufs [9; 2; 1] calloc_counts calloc_counts [7; 7; 7]) 1 2 0)
    as [b'| |] eqn:Hrun; [|vm_compute in Hrun; discriminate..].
  destruct (count_and_scatter 0 1 2 (Bufs [9; 2; 1] calloc_counts calloc_counts [7; 7; 7]))
    as [b4| |] eqn:Hscat; [|vm_compute in Hscat; discriminate..].
  destruct (sort_counting_copy_back _ b4 1 2 0 Hscat) as (b'' & Hrun' & Ho & Hcp & _).
  - lia.
  - vm_compute in Hscat. injection Hscat as <-. simpl. lia.
  - vm_compute in Hscat. injection Hscat as <-. simpl. lia.
  - rewrite Hrun in Hrun'. injection Hrun' as <-.
    exists b'. split; [done|].
    destruct (Hcp 1 ltac:(lia)) as (v & Hv & Hv').
    vm_compute in Hscat. injection Hscat as <-.
    vm_compute in Hv. injection Hv as <-.
    split; [done|]. rewrite Ho. reflexivity.
Defined.

(** C4 as stated does not hold: on the range [1 .. 2] of a three-element
    array the copy-back loop leaves [arr[1] = sorted_arr[0]], which
    differs from [sorted_arr[1]]. *)
Lemma sort_counting_copy_back_counterexample :
  ¬ (∀ (b b' : bufs) (start_idx end_idx digit_exp : Z),
       sort_counting b start_idx end_idx digit_exp = Ok b' →
       ∀ i, start_idx ≤ i ≤ end_idx →
            rd (ptr_to_arr b') i = rd (sorted_arr b') i).
Proof.
  intros H.
  destruct (sort_counting (Bufs [9; 2; 1] calloc_counts calloc_counts [7; 7; 7]) 1 2 0)
    as [b'| |] eqn:Hrun; [|vm_compute in Hrun; discriminate..].
  specialize (H _ _ _ _ _ Hrun 1 ltac:(lia)).
  vm_compute in Hrun. injection Hrun as <-.
  vm_compute in H. discriminate.
Qed.

(** ** The chunks of a pass *)

Lemma chunk_size_eq (n : Z) :
  0 ≤ n ≤ Int32.INT_MAX - 8 → chunk_size n = (n + 7) / 8.
Proof.
  unfold Int32.INT_MAX. intros Hn.
  unfold chunk_size, Int32.div, Int32.sub, Int32.add, MAX_THREADS.
  rewrite (wrap_small (n + 8)) by (unfold Int32.INT_MIN, Int32.INT_MAX; lia).
  rewrite (wrap_small (n + 8 - 1)) by (unfold Int32.INT_MIN, Int32.INT_MAX; lia).
  rewrite Z.quot_div_nonneg by lia.
  replace (n + 8 - 1) with (n + 7) by lia.
  apply wrap_small. unfold Int32.INT_MIN, Int32.INT_MAX.
  pose proof (Z.div_pos (n + 7) 8 ltac:(lia) ltac:(lia)).
  pose proof (Z.div_le_upper_bound (n + 7) 8 (n + 7) ltac:(lia) ltac:(lia)).
  lia.
Qed.

Lemma chunk_bounds (n d i : Z) :
  0 ≤ n ≤ Int32.INT_MAX - 8 → 0 ≤ i ≤ 7 →
  start_idx (chunk n d i) = i * ((n + 7) / 8) ∧
  end_idx (chunk n d i) = if decide (i = 7) then n - 1
                          else (i + 1) * ((n + 7) / 8) - 1.
Proof.
  intros Hn Hi. unfold chunk. simpl. rewrite chunk_size_eq by done.
  unfold Int32.INT_MAX in Hn.
  assert (0 ≤ (n + 7) / 8 ≤ 2 ^ 28) as Hcs.
  { split; [apply Z.div_pos; lia|].
    apply Z.div_le_upper_bound; lia. }
  unfold Int32.mul, Int32.sub, MAX_THREADS.
  split.
  - apply wrap_small. unfold Int32.INT_MIN, Int32.INT_MAX. nia.
  - destruct (decide (i = 7)) as [->|Hne]; simpl.
    + apply wrap_small. unfold Int32.INT_MIN, Int32.INT_MAX. lia.
    + destruct (i =? 8 - 1) eqn:E; [apply Z.eqb_eq in E; lia|].
      rewrite (wrap_small ((i + 1) * _))
        by (unfold Int32.INT_MIN, Int32.INT_MAX; nia).
      apply wrap_small. unfold Int32.INT_MIN, Int32.INT_MAX. nia.
Qed.

(** X13. The ranges handed to two different workers of a pass have no
    index in common: the range of the worker with the smaller index ends
    before the other one starts. *)
Lemma chunks_disjoint (n d i j : Z) :
  0 ≤ n ≤ Int32.INT_MAX - 8 → 0 ≤ i → i < j → j ≤ 7 →
  end_idx (chunk n d i) < start_idx (chunk n d j).
Proof.
  intros Hn Hi Hij Hj.
  destruct (chunk_bounds n d i Hn ltac:(lia)) as [_ ->].
  destruct (chunk_bounds n d j Hn ltac:(lia)) as [-> _].
  rewrite decide_False by lia.
  assert (0 ≤ (n + 7) / 8) by (apply Z.div_pos; lia). nia.
Qed.

(** Up to 256 elements, no chunk is longer than the insertion-sort
    threshold: every worker takes the [sort_insertion] branch. *)
Lemma chunk_len_small (n d i : Z) :
  0 ≤ n ≤ 256 → 0 ≤ i ≤ 7 →
  (chunk_len (chunk n d i) <=? INSERTION_SORT_THRESHOLD) = true.
Proof.
  intros Hn Hi.
  destruct (chunk_bounds n d i) as [Hs He]; [unfold Int32.INT_MAX; lia | done |].
  unfold chunk_len. rewrite Hs, He. clear Hs He.
  assert (0 ≤ (n + 7) / 8 ≤ 32) as Hcs.
  { split; [apply Z.div_pos; lia|].
    pose proof (Z.div_lt_upper_bound (n + 7) 8 33 ltac:(lia) ltac:(lia)). lia. }
  assert (n ≤ 8 * ((n + 7) / 8)) as Hup.
  { pose proof (Z.div_mod (n + 7) 8 ltac:(lia)).
    pose proof (Z.mod_pos_bound (n + 7) 8 ltac:(lia)). lia. }
  unfold Int32.add, Int32.sub, INSERTION_SORT_THRESHOLD.
  apply Z.leb_le.
  destruct (decide (i = 7)) as [->|Hne].
  - rewrite (wrap_small (n - 1 - _))
      by (unfold Int32.INT_MIN, Int32.INT_MAX; lia).
    rewrite wrap_small by (unfold Int32.INT_MIN, Int32.INT_MAX; lia). lia.
  - rewrite (wrap_small (_ - _))
      by (unfold Int32.INT_MIN, Int32.INT_MAX; nia).
    rewrite wrap_small by (unfold Int32.INT_MIN, Int32.INT_MAX; nia). nia.
Qed.

(** X14. [sort_insertion] neither looks at nor changes the cells outside
    its range: with the same cells in the range and any other cells
    around it, it leaves the same cells in the range and the surrounding
    cells as they were. *)
Lemma sort_insertion_local (pre pre' seg post post' : list Z) (s e : Z) :
  s = Z.of_nat (length pre) → length pre' = length pre →
  e = s + Z.of_nat (length seg) - 1 →
  ∃ seg', sort_insertion (pre ++ seg ++ post) s e = Ok (pre ++ seg' ++ post) ∧
          sort_insertion (pre' ++ seg ++ post') s e = Ok (pre' ++ seg' ++ post').
Proof.
  intros Hs Hp He. unfold sort_insertion.
  destruct seg as [|x seg].
  - exists []. split; apply sort_insertion_cells_noop; simpl in He; lia.
  - destruct (sort_insertion_cells_spec (λ x : Z, x) pre (x :: seg) post s e)
      as (seg1 & Hrun1 & _ & HSS1 & Hperm1 & _); [done..|].
    destruct (sort_insertion_cells_spec (λ x : Z, x) pre' (x :: seg) post' s e)
      as (seg2 & Hrun2 & _ & HSS2 & Hperm2 & _); [lia | done | done |].
    exists seg1. split; [done|]. rewrite Hrun2. do 3 f_equal.
    apply (StronglySorted_unique Z.le); [done | done |].
    by rewrite Hperm1, Hperm2.
Qed.

(** X11. The eight ranges of a pass are contiguous: the first starts at
    0, each of the others starts right after the one before ends, and the
    last ends at [n - 1]. *)
Lemma chunks_contiguous (n d : Z) :
  0 ≤ n ≤ Int32.INT_MAX - 8 →
  start_idx (chunk n d 0) = 0 ∧
  (∀ i, 0 ≤ i < 7 → start_idx (chunk n d (i + 1)) = end_idx (chunk n d i) + 1) ∧
  end_idx (chunk n d 7) = n - 1.
Proof.
  intros Hn. split_and!.
  - destruct (chunk_bounds n d 0 Hn ltac:(lia)) as [-> _]. lia.
  - intros i Hi.
    destruct (chunk_bounds n d (i + 1) Hn ltac:(lia)) as [-> _].
    destruct (chunk_bounds n d i Hn ltac:(lia)) as [_ ->].
    rewrite decide_False by lia. lia.
  - destruct (chunk_bounds n d 7 Hn ltac:(lia)) as [_ ->].
    by rewrite decide_True.
Qed.

(** The ranges of workers 0 to 6 stay inside [0, n) exactly when seven
    chunks fit in [n]; otherwise they reach past [n - 1]. *)
Lemma chunks_inside_iff (n d : Z) :
  0 ≤ n ≤ Int32.INT_MAX - 8 →
  end_idx (chunk n d 6) ≤ n - 1 ↔ 7 * ((n + 7) / 8) ≤ n.
Proof.
  intros Hn. destruct (chunk_bounds n d 6 Hn ltac:(lia)) as [_ ->].
  rewrite decide_False by lia. lia.
Qed.


(** ** Arrays of at most eight elements *)

Lemma find_max_ok (arr : list Z) (n : Z) :
  1 ≤ n ≤ Z.of_nat (length arr) → ∃ m, find_max arr n = Ok m.
Proof.
  intros Hn. unfold find_max.
  destruct (rd_in arr 0) as [m0 ->]; [lia|]. rewrite bind_Ok.
  destruct (for_range_inv (λ _ _, True)
    (λ i m, x ← rd arr i; Ok (if x >? m then x else m)) 1 (n - 1) m0)
    as (m & Hm & _); [lia | done | | by exists m].
  intros i t Hi _. destruct (rd_in arr i) as [x ->]; [lia|].
  rewrite bind_Ok. eauto.
Qed.

(** With [1 <= n <= 8] the chunk size is 1 and no chunk holds more than
    one element. *)
Lemma chunk_single (n d i : Z) :
  1 ≤ n ≤ 8 → 0 ≤ i ≤ 7 →
  end_idx (chunk n d i) ≤ start_idx (chunk n d i) ∧
  (chunk_len (chunk n d i) <=? INSERTION_SORT_THRESHOLD) = true.
Proof.
  intros Hn Hi.
  assert (n = 1 ∨ n = 2 ∨ n = 3 ∨ n = 4 ∨ n = 5 ∨ n = 6 ∨ n = 7 ∨ n = 8)
    as Hn' by lia.
  assert (i = 0 ∨ i = 1 ∨ i = 2 ∨ i = 3 ∨ i = 4 ∨ i = 5 ∨ i = 6 ∨ i = 7)
    as Hi' by lia.
  clear Hn Hi.
  repeat (destruct Hn' as [->|Hn']); try subst n;
    repeat (destruct Hi' as [->|Hi']); try subst i;
    (split; [vm_compute; discriminate | vm_compute; reflexivity]).
Qed.

Lemma run_worker_single (n d i : Z) (b : bufs) :
  1 ≤ n ≤ 8 → 0 ≤ i ≤ 7 →
  run_worker n d i b = Ok (set_local calloc_counts b).
Proof.
  intros Hn Hi. destruct (chunk_single n d i Hn Hi) as [Hle Hsize].
  unfold run_worker, sort_radix_thread. rewrite Hsize.
  unfold sort_insertion. rewrite sort_insertion_cells_noop by done.
  by destruct b.
Qed.

Lemma run_pass_single (n d : Z) (b : bufs) :
  1 ≤ n ≤ 8 →
  run_pass n d b
  = Ok (Bufs (ptr_to_arr b) calloc_counts calloc_counts (sorted_arr b)).
Proof.
  intros Hn. unfold run_pass.
  destruct (for_range_inv
    (λ i s, s = if decide (i = 0) then b else set_local calloc_counts b)
    (run_worker n d) 0 (MAX_THREADS - 1) b) as (s & -> & ->).
  - unfold MAX_THREADS. lia.
  - by rewrite decide_True.
  - intros i t Hi ->. unfold MAX_THREADS in Hi.
    rewrite run_worker_single by lia. eexists. split; [reflexivity|].
    destruct (decide (i + 1 = 0)); [lia|]. by destruct (decide (i = 0)).
  - by destruct b.
Qed.

(** ** [sort_radix] on up to 256 elements

    Up to 256 elements every worker takes the [sort_insertion] branch on
    a range of its own, and [sort_insertion] stays within its range (the
    lemmas on the chunks of a pass above): no two workers touch the same
    cell, and the arrays computed below are the same however the threads
    are scheduled. *)

(** C1. [sort_radix] returns the two-element array [1, 0] as it received
    it, which is not in non-decreasing order: each of the eight chunks
    holds at most one element and no worker moves anything. *)
Theorem sort_radix_leaves_unsorted :
  sort_radix [1; 0] 2 = Ok [1; 0] ∧ ¬ Sorted Z.le [1; 0].
Proof.
  split; [vm_compute; reflexivity|].
  intros H. apply Sorted_inv in H as [_ H]. apply HdRel_inv in H. lia.
Qed.

(** C2. On the array [1, 0] the driver finds [max_elem = 1] and runs digit
    pass 0; when that pass completes the array is still [1, 0], which is
    not ordered by the key [x mod 2^8]. *)
Theorem first_pass_leaves_unsorted :
  find_max [1; 0] 2 = Ok 1 ∧
  (Z.shiftr 1 (8 * 0) >? 0) = true ∧
  ∃ b', run_pass 2 0 (Bufs [1; 0] [] calloc_counts (malloc_ints 2)) = Ok b' ∧
        ptr_to_arr b' = [1; 0] ∧
        ¬ Sorted (λ x y, composite_key 0 x ≤ composite_key 0 y) (ptr_to_arr b').
Proof.
  split; [vm_compute; reflexivity|]. split; [reflexivity|].
  eexists. split; [vm_compute; reflexivity|]. split; [reflexivity|].
  simpl. intros H. apply Sorted_inv in H as [_ H]. apply HdRel_inv in H.
  vm_compute in H. by apply H.
Qed.

(** C3. For [n = 9] the chunk size is 2 and workers 4, 5 and 6 are handed
    the ranges [8..9], [10..11] and [12..13], which reach past the last
    index 8.  On a nine-element array worker 4 reads [arr[9]], and so does
    the driver as a whole; in a longer buffer worker 5 reorders the cells
    10 and 11, which lie outside [0, n) altogether. *)
Theorem chunks_reach_past_the_array :
  chunk_size 9 = 2 ∧
  chunk 9 0 4 = Params 8 9 0 ∧
  chunk 9 0 5 = Params 10 11 0 ∧
  chunk 9 0 6 = Params 12 13 0 ∧
  chunk 9 0 7 = Params 14 8 0 ∧
  sort_radix_thread (chunk 9 0 4)
    (Bufs [1; 1; 1; 1; 1; 1; 1; 1; 1] calloc_counts calloc_counts (malloc_ints 9))
  = OutOfBounds 9 ∧
  sort_radix [1; 1; 1; 1; 1; 1; 1; 1; 1] 9 = OutOfBounds 9 ∧
  ptr_to_arr_of
    (sort_radix_thread (chunk 9 0 5)
       (Bufs [1; 1; 1; 1; 1; 1; 1; 1; 1; 0; 7; 3; 0; 0]
             calloc_counts calloc_counts (malloc_ints 9)))
  = Ok [1; 1; 1; 1; 1; 1; 1; 1; 1; 0; 3; 7; 0; 0].
Proof. repeat split; vm_compute; reflexivity. Qed.

(** C5. With [n = 0] the driver still starts by reading [arr[0]]: on an
    array without elements that read is out of bounds; where a cell is
    there, its value decides whether digit passes are run. *)
Theorem sort_radix_empty_reads_first_cell :
  find_max [] 0 = OutOfBounds 0 ∧
  sort_radix [] 0 = OutOfBounds 0 ∧
  find_max [7] 0 = Ok 7 ∧
  (Z.shiftr 7 (8 * 0) >? 0) = true.
Proof. repeat split; vm_compute; reflexivity. Qed.

(** C6. [sort_radix] returns the array [170, 45, 75, 90, 802, 24, 2, 66]
    as it received it, not [2, 24, 45, 66, 75, 90, 170, 802]. *)
Theorem sort_radix_concrete_scenario :
  sort_radix [170; 45; 75; 90; 802; 24; 2; 66] 8
  = Ok [170; 45; 75; 90; 802; 24; 2; 66] ∧
  sort_radix [170; 45; 75; 90; 802; 24; 2; 66] 8
  ≠ Ok [2; 24; 45; 66; 75; 90; 170; 802].
Proof. split; [vm_compute; reflexivity | vm_compute; discriminate]. Qed.

(** C8. On the sorted nine-element array [1 .. 9] the worker of chunk
    [8..9] reads [arr[9]], out of bounds.  When the nine elements are the
    front of a longer buffer whose next cell holds 0, that worker swaps
    the two cells and the last element of the sorted array becomes 0. *)
Theorem sort_radix_sorted_input_changed :
  sort_radix [1; 2; 3; 4; 5; 6; 7; 8; 9] 9 = OutOfBounds 9 ∧
  sort_radix [1; 2; 3; 4; 5; 6; 7; 8; 9; 0; 0; 0; 0; 0] 9
  = Ok [1; 2; 3; 4; 5; 6; 7; 8; 0; 9; 0; 0; 0; 0].
Proof. split; vm_compute; reflexivity. Qed.

(** C9. On nine copies of 5 the worker of chunk [8..9] reads [arr[9]], out
    of bounds.  When the nine elements are the front of a longer buffer
    whose next cell holds 0, the last copy of 5 is replaced by 0. *)
Theorem sort_radix_all_equal_changed :
  sort_radix (replicate 9 5) 9 = OutOfBounds 9 ∧
  sort_radix (replicate 9 5 ++ replicate 5 0) 9
  = Ok (replicate 8 5 ++ [0; 5; 0; 0; 0; 0]).
Proof. split; vm_compute; reflexivity. Qed.


(** ** More than 256 elements: the shared histogram

    From 257 elements on, workers 0 to 6 take the [sort_counting] branch
    and share the global histogram and the output buffer.  In the
    schedule where the workers run one after another in index order, every
    worker after the first adds its counts to what the scatter loop of the
    previous one left in the global histogram; its elements land outside
    the cells that its copy-back loop reads.  Here the sorted input of 33
    copies of 254 followed by 224 copies of 255 comes out as 231 copies of
    254 followed by 26 copies of 255. *)
Lemma in_order_schedule_loses_elements :
  sort_radix (replicate 33 254 ++ replicate 224 255) 257
  = Ok (replicate 231 254 ++ replicate 26 255).
Proof. vm_compute. reflexivity. Qed.

(** * Further properties *)

(** ** The maximum scan *)

Lemma find_max_scan (arr : list Z) (n : Z) :
  arr ≠ [] → n ≤ Z.of_nat (length arr) →
  ∃ m, find_max arr n = Ok m ∧
       (∃ i, 0 ≤ i < Z.max 1 n ∧ rd arr i = Ok m) ∧
       (∀ i x, 0 ≤ i < Z.max 1 n → rd arr i = Ok x → x ≤ m).
Proof.
  intros Hne Hn. unfold find_max.
  assert (0 < Z.of_nat (length arr)) as Hlen by (destruct arr; [done | simpl; lia]).
  destruct (rd_in arr 0) as [m0 Hm0]; [lia|]. rewrite Hm0, bind_Ok.
  destruct (decide (n ≤ 1)) as [Hsmall|Hbig].
  - rewrite for_range_empty by lia. exists m0. split; [done|]. split.
    + exists 0. split; [lia | done].
    + intros i x Hi Hx. replace i with 0 in Hx by lia.
      rewrite Hm0 in Hx. injection Hx as ->. lia.
  - destruct (for_range_inv
      (λ i m, (∃ j, 0 ≤ j < i ∧ rd arr j = Ok m) ∧
              (∀ j x, 0 ≤ j < i → rd arr j = Ok x → x ≤ m))
      (λ i m, x ← rd arr i; Ok (if x >? m then x else m)) 1 (n - 1) m0)
      as (m & Hrun & Hex & Hall).
    + lia.
    + split.
      * exists 0. split; [lia | done].
      * intros j x Hj Hx. replace j with 0 in Hx by lia.
        rewrite Hm0 in Hx. injection Hx as ->. lia.
    + intros i t Hi ((j & Hj & Hjt) & Hall).
      destruct (rd_in arr i) as [x Hx]; [lia|]. rewrite Hx, bind_Ok.
      eexists. split; [reflexivity|].
      destruct (x >? t) eqn:Hcmp.
      * apply Z.gtb_lt in Hcmp. split.
        -- exists i. split; [lia | done].
        -- intros k y Hk Hy. destruct (decide (k = i)) as [->|Hki].
           ++ rewrite Hx in Hy. injection Hy as ->. lia.
           ++ specialize (Hall k y ltac:(lia) Hy). lia.
      * assert (x ≤ t) by (rewrite Z.gtb_ltb in Hcmp; apply Z.ltb_ge in Hcmp; lia).
        split.
        -- exists j. split; [lia | done].
        -- intros k y Hk Hy. destruct (decide (k = i)) as [->|Hki].
           ++ rewrite Hx in Hy. injection Hy as ->. lia.
           ++ apply (Hall k y); [lia | done].
    + exists m. replace (n - 1 + 1) with n in * by lia.
      replace (Z.max 1 n) with n by lia. done.
Qed.

(** X1. On a buffer that holds at least [n >= 1] elements the scan that
    opens [sort_radix] succeeds and returns the largest of the first [n]
    elements: a value that occurs among them and bounds them all. *)
Theorem find_max_is_maximum (arr : list Z) (n : Z) :
  1 ≤ n ≤ Z.of_nat (length arr) →
  ∃ m, find_max arr n = Ok m ∧
       (∃ i, 0 ≤ i < n ∧ rd arr i = Ok m) ∧
       (∀ i x, 0 ≤ i < n → rd arr i = Ok x → x ≤ m).
Proof.
  intros Hn. destruct (find_max_scan arr n) as (m & Hrun & Hex & Hall).
  - destruct arr; [simpl in Hn; lia | done].
  - lia.
  - replace (Z.max 1 n) with n in * by lia. by exists m.
Qed.

(** The scan of [3, 9, 4] reports an element that bounds index 1. *)
Lemma find_max_is_maximum_witness :
  ∃ m, find_max [3; 9; 4] 3 = Ok m ∧ 9 ≤ m.
Proof.
  destruct (find_max_is_maximum [3; 9; 4] 3) as (m & Hrun & _ & Hall).
  - simpl. lia.
  - exists m. split; [exact Hrun|]. apply (Hall 1 9); [lia | reflexivity].
Defined.

(** ** Digits *)



Lemma digit_of_div (e x : Z) :
  0 ≤ e → digit_of e x = (x / 2 ^ (8 * e)) mod 256.
Proof.
  intros He. unfold digit_of. change 255 with (Z.ones 8).
  rewrite Z.land_ones by lia. rewrite Z.shiftr_div_pow2 by lia. reflexivity.
Qed.

(** The key of pass [e] is the key of pass [e - 1] with digit [e] put in
    front of it. *)
Lemma composite_key_step (e x : Z) :
  0 ≤ e →
  composite_key e x = composite_key (e - 1) x + 2 ^ (8 * e) * digit_of e x.
Proof.
  intros He. unfold composite_key. rewrite digit_of_div by done.
  replace (8 * (e - 1 + 1)) with (8 * e) by lia.
  replace (8 * (e + 1)) with (8 * e + 8) by lia.
  rewrite Z.pow_add_r by lia.
  apply Z.rem_mul_r; [|lia].
  apply Z.pow_nonzero; lia.
Qed.

Lemma composite_key_range (e x : Z) :
  -1 ≤ e → 0 ≤ composite_key e x < 2 ^ (8 * (e + 1)).
Proof.
  intros He. unfold composite_key. apply Z.mod_pos_bound.
  apply Z.pow_pos_nonneg; lia.
Qed.

(** X3. The four digits of a 32-bit value put it together again:
    [x = d0 + 2^8 d1 + 2^16 d2 + 2^24 d3]. *)
Theorem digits_rebuild_value (x : Z) :
  0 ≤ x < 2 ^ 32 →
  x = digit_of 0 x + 2 ^ 8 * digit_of 1 x + 2 ^ 16 * digit_of 2 x
      + 2 ^ 24 * digit_of 3 x.
Proof.
  intros Hx.
  assert (composite_key 3 x = x) as H3
    by (unfold composite_key; apply Z.mod_small; simpl; lia).
  rewrite <- H3 at 1.
  rewrite (composite_key_step 3), (composite_key_step 2),
          (composite_key_step 1), (composite_key_step 0) by lia.
  assert (composite_key (0 - 1) x = 0) as H0
    by (unfold composite_key; simpl; apply Z.mod_1_r).
  replace (3 - 1) with 2 by lia. replace (2 - 1) with 1 by lia.
  replace (1 - 1) with 0 by lia. rewrite H0.
  change (2 ^ (8 * 0)) with 1. change (8 * 1) with 8.
  change (8 * 2) with 16. change (8 * 3) with 24. lia.
Qed.

(** 802 = 34 + 256 * 3. *)
Lemma digits_rebuild_value_witness :
  802 = digit_of 0 802 + 2 ^ 8 * digit_of 1 802 + 2 ^ 16 * digit_of 2 802
        + 2 ^ 24 * digit_of 3 802.
Proof. apply (digits_rebuild_value 802). lia. Defined.

(** ** The digit loop *)

Lemma loop_test_true (m d : Z) :
  0 ≤ d → 2 ^ (8 * d) ≤ m → (Z.shiftr m (8 * d) >? 0) = true.
Proof.
  intros Hd Hm. rewrite Z.shiftr_div_pow2 by lia. apply Z.gtb_lt.
  assert (0 < 2 ^ (8 * d)) by (apply Z.pow_pos_nonneg; lia).
  pose proof (Z.div_le_lower_bound m (2 ^ (8 * d)) 1 ltac:(lia) ltac:(lia)).
  lia.
Qed.

Lemma loop_test_false (m d : Z) :
  0 ≤ d → m < 2 ^ (8 * d) → (Z.shiftr m (8 * d) >? 0) = false.
Proof.
  intros Hd Hm. rewrite Z.shiftr_div_pow2 by lia.
  assert (0 < 2 ^ (8 * d)) by (apply Z.pow_pos_nonneg; lia).
  pose proof (Z.div_lt_upper_bound m (2 ^ (8 * d)) 1 ltac:(lia) ltac:(lia)).
  rewrite Z.gtb_ltb. apply Z.ltb_ge. lia.
Qed.

Section DigitLoop.
Context (Inv Post : bufs → Prop) (n m : Z).
Hypothesis Hpass :
  ∀ d b, Inv b → ∃ b', run_pass n d b = Ok b' ∧ Inv b' ∧ Post b'.

(** With [max_elem < 2^24] the loop ends before the test reaches
    [digit_exp = 4]; if it makes a pass at all, the last one leaves
    [Post]. *)
Lemma pass_loop_ends (bytes : nat) (d : Z) (b : bufs) :
  0 ≤ d → d + Z.of_nat bytes = 4 → (0 < bytes)%nat → m < 2 ^ 24 →
  Inv b →
  ∃ b', pass_loop bytes n m d b = Ok b' ∧ Inv b' ∧
        (Post b → Post b') ∧
        ((Z.shiftr m (8 * d) >? 0) = true → Post b').
Proof.
  revert d b. induction bytes as [|k IH]; intros d b Hd Hsum Hpos Hm HI; [lia|].
  cbn [pass_loop]. rewrite shr_defined, bind_Ok by lia.
  destruct (Z.shiftr m (8 * d) >? 0) eqn:Htest.
  - assert (0 < k)%nat as Hk.
    { destruct k; [|lia]. replace d with 3 in Htest by lia.
      rewrite loop_test_false in Htest by (simpl; lia). discriminate. }
    destruct (Hpass d b HI) as (b1 & Hrun1 & HI1 & HP1).
    rewrite Hrun1, bind_Ok.
    destruct (IH (d + 1) b1 ltac:(lia) ltac:(lia) Hk Hm HI1)
      as (b' & Hrun & HI' & Hkeep & _).
    exists b'. split; [exact Hrun|]. split; [exact HI'|]. split; auto.
  - exists b. split; [reflexivity|]. split; [exact HI|]. split; [auto | discriminate].
Qed.

(** With [max_elem >= 2^24] the test holds at [digit_exp = 0, 1, 2, 3]
    and is then evaluated at [digit_exp = 4]. *)
Lemma pass_loop_shifts_by_32 (bytes : nat) (d : Z) (b : bufs) :
  0 ≤ d → d + Z.of_nat bytes = 4 → 2 ^ 24 ≤ m →
  Inv b →
  pass_loop bytes n m d b = ShiftTooWide 32.
Proof.
  revert d b. induction bytes as [|k IH]; intros d b Hd Hsum Hm HI.
  - cbn [pass_loop]. replace d with 4 by lia. reflexivity.
  - cbn [pass_loop]. rewrite shr_defined, bind_Ok by lia.
    rewrite loop_test_true; [|lia|].
    + destruct (Hpass d b HI) as (b1 & Hrun1 & HI1 & _).
      rewrite Hrun1, bind_Ok. apply IH; [lia | lia | exact Hm | exact HI1].
    + assert (2 ^ (8 * d) ≤ 2 ^ 24) by (apply Z.pow_le_mono_r; lia). lia.
Qed.
End DigitLoop.

(** ** Calls that leave the array alone *)

(** X4. When none of the first [n] elements is positive (all zeros, or
    negative values) the digit loop is not entered: [sort_radix] returns
    the buffer exactly as it received it, whatever [n], so negative
    elements are never put in order. *)
Theorem sort_radix_no_positive (arr : list Z) (n : Z) :
  arr ≠ [] → n ≤ Z.of_nat (length arr) →
  (∀ i x, 0 ≤ i < Z.max 1 n → rd arr i = Ok x → x ≤ 0) →
  sort_radix arr n = Ok arr.
Proof.
  intros Hne Hn Hall. unfold sort_radix.
  destruct (find_max_scan arr n Hne Hn) as (m & -> & (i & Hi & Him) & _).
  rewrite bind_Ok. specialize (Hall i m Hi Him).
  cbn [pass_loop]. rewrite (shr_defined m (8 * 0)), bind_Ok by lia.
  change (8 * 0) with 0. rewrite Z.shiftr_0_r.
  destruct (m >? 0) eqn:Hm; [apply Z.gtb_lt in Hm; lia|].
  reflexivity.
Qed.

(** Two negative elements in decreasing order stay as they are. *)
Lemma sort_radix_no_positive_witness :
  sort_radix [-1; -5] 2 = Ok [-1; -5].
Proof.
  apply (sort_radix_no_positive [-1; -5] 2); [done | simpl; lia |].
  intros i x Hi Hx. apply rd_lookup in Hx as [_ Hx].
  destruct (Z.to_nat i) as [|[|k]] eqn:E; simpl in Hx;
    [injection Hx as <-; lia | injection Hx as <-; lia | discriminate].
Defined.

Lemma chunk_at_most_one (n d i : Z) :
  0 ≤ n ≤ 8 → 0 ≤ i ≤ 7 →
  end_idx (chunk n d i) ≤ start_idx (chunk n d i) ∧
  (chunk_len (chunk n d i) <=? INSERTION_SORT_THRESHOLD) = true.
Proof.
  intros Hn Hi.
  destruct (decide (n = 0)) as [->|Hn0]; [|apply chunk_single; lia].
  assert (i = 0 ∨ i = 1 ∨ i = 2 ∨ i = 3 ∨ i = 4 ∨ i = 5 ∨ i = 6 ∨ i = 7)
    as Hi' by lia.
  clear Hi.
  repeat (destruct Hi' as [->|Hi']); try subst i;
    (split; [vm_compute; discriminate | vm_compute; reflexivity]).
Qed.

Lemma run_pass_at_most_one (n d : Z) (b : bufs) :
  0 ≤ n ≤ 8 →
  run_pass n d b
  = Ok (Bufs (ptr_to_arr b) calloc_counts calloc_counts (sorted_arr b)).
Proof.
  intros Hn. unfold run_pass.
  destruct (for_range_inv
    (λ i s, s = if decide (i = 0) then b else set_local calloc_counts b)
    (run_worker n d) 0 (MAX_THREADS - 1) b) as (s & -> & ->).
  - unfold MAX_THREADS. lia.
  - by rewrite decide_True.
  - intros i t Hi ->. unfold MAX_THREADS in Hi.
    destruct (chunk_at_most_one n d i Hn ltac:(lia)) as [Hle Hsize].
    unfold run_worker, sort_radix_thread. rewrite Hsize.
    unfold sort_insertion. rewrite sort_insertion_cells_noop by exact Hle.
    eexists. split; [reflexivity|].
    destruct (decide (i + 1 = 0)); [lia|]. by destruct (decide (i = 0)), b.
  - by destruct b.
Qed.

Lemma run_pass_keeps_array (n : Z) (a0 : list Z) :
  0 ≤ n ≤ 8 →
  ∀ d b, ptr_to_arr b = a0 →
         ∃ b', run_pass n d b = Ok b' ∧ ptr_to_arr b' = a0 ∧ True.
Proof.
  intros Hn d b Hb. rewrite run_pass_at_most_one by exact Hn.
  eexists. split; [reflexivity|]. split; [exact Hb | exact I].
Qed.

(** X5. Asked to sort at most eight elements of a non-empty buffer
    ([0 <= n <= 8]) whose scanned elements are all below [2^24],
    [sort_radix] succeeds and returns the buffer exactly as it received
    it, sorted or not: the chunk size is at most 1 and no worker has two
    elements to compare.  This covers [n = 0] on a buffer that has a
    first cell. *)
Theorem sort_radix_at_most_eight_unchanged (arr : list Z) (n : Z) :
  arr ≠ [] → 0 ≤ n ≤ 8 → n ≤ Z.of_nat (length arr) →
  (∀ i x, 0 ≤ i < Z.max 1 n → rd arr i = Ok x → x < 2 ^ 24) →
  sort_radix arr n = Ok arr.
Proof.
  intros Hne Hn Hlen Hsmall. unfold sort_radix.
  destruct (find_max_scan arr n Hne Hlen) as (m & -> & (i & Hi & Him) & _).
  rewrite bind_Ok.
  destruct (pass_loop_ends (λ b, ptr_to_arr b = arr) (λ _, True) n m
              (run_pass_keeps_array n arr Hn) 4 0
              (Bufs arr [] calloc_counts (malloc_ints n)))
    as (b' & Hrun & Hb' & _); [lia | lia | lia | | reflexivity |].
  { exact (Hsmall i m Hi Him). }
  rewrite Hrun, bind_Ok. f_equal. exact Hb'.
Qed.

(** Five elements in decreasing order come back in decreasing order. *)
Lemma sort_radix_at_most_eight_unchanged_witness :
  sort_radix [5; 4; 3; 2; 1] 5 = Ok [5; 4; 3; 2; 1].
Proof.
  apply (sort_radix_at_most_eight_unchanged [5; 4; 3; 2; 1] 5);
    [done | lia | simpl; lia |].
  intros i x Hi Hx. apply rd_lookup in Hx as [_ Hx].
  apply list_elem_of_lookup_2 in Hx.
  repeat (apply elem_of_cons in Hx as [->|Hx]; [lia|]).
  by apply elem_of_nil in Hx.
Defined.

(** ** [sort_insertion] on sorted and on overlong ranges *)

Lemma range_of_middle (pre seg post : list Z) (s e : Z) :
  s = Z.of_nat (length pre) → e = s + Z.of_nat (length seg) - 1 →
  range_of (pre ++ seg ++ post) s e = seg.
Proof.
  intros -> ->. unfold range_of. rewrite Nat2Z.id, drop_app_length.
  apply take_app_length'. lia.
Qed.

(** X6. On an in-bounds range whose cells are already in non-decreasing
    order [sort_insertion] returns the array unchanged; in particular
    running it a second time on the same range changes nothing. *)
Theorem sort_insertion_sorted_unchanged (arr : list Z) (start_idx end_idx : Z) :
  0 ≤ start_idx → end_idx < Z.of_nat (length arr) →
  Sorted Z.le (range_of arr start_idx end_idx) →
  sort_insertion arr start_idx end_idx = Ok arr.
Proof.
  intros H0 H1 Hsorted. unfold sort_insertion.
  destruct (decide (end_idx ≤ start_idx)) as [Hle|Hgt];
    [by apply sort_insertion_cells_noop|].
  destruct (split_range arr start_idx end_idx) as (pre & seg & post & -> & Hp & Hs);
    [lia..|].
  rewrite (range_of_middle pre seg post) in Hsorted by lia.
  destruct (sort_insertion_cells_spec (λ x : Z, x) pre seg post start_idx end_idx)
    as (seg' & Hrun & _ & HSS & Hperm & _); [lia | lia | |].
  { destruct seg; [simpl in Hs; lia | done]. }
  rewrite firstn_all in Hperm. rewrite Hrun. do 3 f_equal.
  apply (StronglySorted_unique Z.le); [exact HSS | | exact Hperm].
  apply Sorted_StronglySorted; [|exact Hsorted].
  intros x y z. apply Z.le_trans.
Qed.

(** The range [1 .. 3] of [9, 2, 2, 7, 0] is in order already. *)
Lemma sort_insertion_sorted_unchanged_witness :
  sort_insertion [9; 2; 2; 7; 0] 1 3 = Ok [9; 2; 2; 7; 0].
Proof.
  apply (sort_insertion_sorted_unchanged [9; 2; 2; 7; 0] 1 3);
    [lia | simpl; lia |].
  repeat constructor; lia.
Defined.

Lemma for_up_add {St} (a b : nat) (i : Z) (body : Z → St → outcome St) (s : St) :
  for_up (a + b) i body s
  = (s' ← for_up a i body s; for_up b (i + Z.of_nat a) body s').
Proof.
  revert i s. induction a as [|a IH]; intros i s.
  - change (for_up b i body s = for_up b (i + 0) body s).
    by replace (i + 0) with i by lia.
  - change (S a + b)%nat with (S (a + b)). cbn [for_up].
    destruct (body i s) as [t|k|c]; [|reflexivity..].
    rewrite !bind_Ok, IH.
    by replace (i + 1 + Z.of_nat a) with (i + Z.of_nat (S a)) by lia.
Qed.

Lemma rd_past_end {A} (buf : list A) (i : Z) :
  Z.of_nat (length buf) ≤ i → rd buf i = OutOfBounds i.
Proof.
  intros H. unfold rd. destruct (0 <=? i) eqn:H0; [|reflexivity].
  by rewrite lookup_ge_None_2 by lia.
Qed.

Lemma sort_insertion_overrun (arr : list Z) (start_idx end_idx : Z) :
  0 ≤ start_idx → start_idx < end_idx →
  Z.of_nat (length arr) ≤ end_idx →
  sort_insertion arr start_idx end_idx
  = OutOfBounds (Z.max (Z.of_nat (length arr)) (start_idx + 1)).
Proof.
  intros Hs Hse He. unfold sort_insertion, sort_insertion_cells, for_range.
  set (len := Z.of_nat (length arr)) in *.
  destruct (decide (len ≤ start_idx + 1)) as [Hout|Hin].
  { replace (Z.to_nat (end_idx - (start_idx + 1) + 1))
      with (S (Z.to_nat (end_idx - start_idx - 1))) by lia.
    cbn [for_up].
    assert (insertion_step (λ x : Z, x) start_idx (start_idx + 1) arr
            = OutOfBounds (start_idx + 1)) as ->.
    { unfold insertion_step. rewrite rd_past_end by (fold len; lia). reflexivity. }
    replace (Z.max len (start_idx + 1)) with (start_idx + 1) by lia.
    reflexivity. }
  replace (Z.max len (start_idx + 1)) with len by lia.
  replace (Z.to_nat (end_idx - (start_idx + 1) + 1))
    with (Z.to_nat (len - 1 - (start_idx + 1) + 1) + S (Z.to_nat (end_idx - len)))%nat
    by lia.
  rewrite for_up_add.
  assert (∃ arr1, for_up (Z.to_nat (len - 1 - (start_idx + 1) + 1)) (start_idx + 1)
                    (insertion_step (λ x : Z, x) start_idx) arr = Ok arr1 ∧
                  length arr1 = length arr) as (arr1 & -> & Hlen).
  { destruct (split_range arr start_idx (len - 1))
      as (pre & seg & post & Harr & Hp & Hseg); [lia..|].
    destruct (sort_insertion_cells_spec (λ x : Z, x) pre seg post
                start_idx (len - 1)) as (seg' & Hrun & _ & _ & Hperm & _).
    - lia.
    - lia.
    - destruct seg; [simpl in Hseg; lia | done].
    - exists (pre ++ seg' ++ post). split.
      + rewrite <- Hrun, Harr. reflexivity.
      + rewrite firstn_all in Hperm.
        rewrite Harr, !length_app. by rewrite Hperm. }
  rewrite bind_Ok. cbn [for_up].
  replace (start_idx + 1 + Z.of_nat (Z.to_nat (len - 1 - (start_idx + 1) + 1)))
    with len by lia.
  assert (insertion_step (λ x : Z, x) start_idx len arr1 = OutOfBounds len) as ->.
  { unfold insertion_step. rewrite rd_past_end by (unfold len; lia). reflexivity. }
  reflexivity.
Qed.

(** X7. A range of at least two cells that reaches to or past the end of
    the array makes [sort_insertion] fault, and the access that faults is
    a read of the first cell of the range, after [start_idx], that lies
    past the end: [arr[length arr]] when the range starts inside the
    array (its in-bounds part is handled first), [arr[start_idx + 1]] when
    it starts at or past the last cell. *)
Theorem sort_insertion_faults_past_end (arr : list Z) (start_idx end_idx : Z) :
  0 ≤ start_idx → start_idx < end_idx →
  Z.of_nat (length arr) ≤ end_idx →
  sort_insertion arr start_idx end_idx
  = OutOfBounds (Z.max (Z.of_nat (length arr)) (start_idx + 1)).
Proof. apply sort_insertion_overrun. Qed.

(** The range [1 .. 4] of a three-element array faults at index 3. *)
Lemma sort_insertion_faults_past_end_witness :
  sort_insertion [4; 9; 2] 1 4 = OutOfBounds 3.
Proof.
  apply (sort_insertion_faults_past_end [4; 9; 2] 1 4); simpl; lia.
Defined.

(** ** [sort_counting] as a pass of an LSD radix sort *)

Section LsdStep.
Context (e : Z).
Hypothesis He : 0 ≤ e.

Lemma le_key_same_digit (x y : Z) :
  digit_of e x = digit_of e y → le_key (e - 1) x y → le_key e x y.
Proof.
  unfold le_key. intros Hd Hxy.
  rewrite !(composite_key_step e) by exact He. rewrite Hd. lia.
Qed.

Lemma le_key_smaller_digit (x y : Z) :
  digit_of e x < digit_of e y → le_key e x y.
Proof.
  unfold le_key. intros Hd.
  rewrite !(composite_key_step e) by exact He.
  pose proof (composite_key_range (e - 1) x ltac:(lia)) as Hx.
  pose proof (composite_key_range (e - 1) y ltac:(lia)) as Hy.
  replace (8 * (e - 1 + 1)) with (8 * e) in * by lia.
  assert (0 < 2 ^ (8 * e)) by (apply Z.pow_pos_nonneg; lia). nia.
Qed.

Lemma same_digit_lsd (d : Z) (l : list Z) :
  StronglySorted (le_key (e - 1)) l →
  StronglySorted (le_key e) (filter (λ x, digit_of e x = d) l).
Proof.
  induction 1 as [|x l HSS IH Hall]; [constructor|].
  destruct (decide (digit_of e x = d)) as [Hx|Hx].
  - rewrite filter_cons_True by done. constructor; [exact IH|].
    apply Forall_forall. intros y Hy.
    apply list_elem_of_filter in Hy as [Hyd Hy].
    rewrite Forall_forall in Hall.
    apply le_key_same_digit; [simpl in Hyd; congruence | by apply Hall].
  - by rewrite filter_cons_False.
Qed.

Lemma buckets_from_lsd (k : nat) (lo : Z) (l : list Z) :
  StronglySorted (le_key (e - 1)) l →
  StronglySorted (le_key e) (buckets_from e k lo l).
Proof.
  intros HSS. revert lo. induction k as [|k IH]; intros lo; [constructor|].
  simpl buckets_from. apply StronglySorted_app. split_and!.
  - intros x1 x2 H1 H2. apply list_elem_of_filter in H1 as [H1 _].
    pose proof (buckets_from_digits e k (lo + 1) l) as HF.
    rewrite Forall_forall in HF. specialize (HF x2 H2). simpl in HF, H1.
    apply le_key_smaller_digit. lia.
  - by apply same_digit_lsd.
  - apply IH.
Qed.
End LsdStep.

Lemma le_key_trans (d : Z) : Transitive (le_key d).
Proof. intros x y z. unfold le_key. lia. Qed.

(** A whole-array pass succeeds and leaves the stable sort by digit in the
    array and in the output buffer, neither of which changes length. *)
Lemma whole_array_pass_result (arr scratch : list Z) (e : Z) :
  0 ≤ e ≤ 3 →
  Z.of_nat (length arr) ≤ Int32.INT_MAX →
  length scratch = length arr →
  ∃ b', whole_array_pass e arr scratch = Ok b' ∧
        ptr_to_arr b' = bucket_sort e arr ∧
        sorted_arr b' = bucket_sort e arr ∧
        length (ptr_to_arr b') = length arr.
Proof.
  intros He Hfit Hlen.
  destruct (sort_counting_bucket_sort arr scratch e He Hfit Hlen) as (loc & g & Hrun).
  eexists. split; [exact Hrun|]. simpl. split_and!; try done.
  by rewrite (bucket_sort_perm e arr).
Qed.

(** X8. The invariant step of LSD radix sort holds for the kernel at each
    of the four digit positions of an [int], [0 <= digit_exp <= 3]: if
    the array is ordered by its digits below [digit_exp] (the key
    [x mod 2^(8 digit_exp)]), then [sort_counting] on the whole array with
    zeroed histograms leaves a permutation of it ordered by the digits up
    to and including [digit_exp] (the key [x mod 2^(8 (digit_exp + 1))]). *)
Theorem whole_array_pass_extends_key (arr scratch : list Z) (digit_exp : Z) :
  Z.of_nat (length arr) ≤ Int32.INT_MAX →
  length scratch = length arr →
  0 ≤ digit_exp ≤ 3 →
  Sorted (le_key (digit_exp - 1)) arr →
  ∃ b', whole_array_pass digit_exp arr scratch = Ok b' ∧
        ptr_to_arr b' ≡ₚ arr ∧
        Sorted (le_key digit_exp) (ptr_to_arr b').
Proof.
  intros Hfit Hlen He Hsorted.
  destruct (whole_array_pass_result arr scratch digit_exp He Hfit Hlen)
    as (b' & Hrun & Harr & _ & _).
  exists b'. split; [exact Hrun|]. rewrite Harr. split.
  - apply bucket_sort_perm.
  - apply StronglySorted_Sorted, buckets_from_lsd; [lia|].
    apply Sorted_StronglySorted; [apply le_key_trans | exact Hsorted].
Qed.

(** An array ordered by its low byte comes out of pass 1 ordered by its
    two low bytes. *)
Lemma whole_array_pass_extends_key_witness :
  ∃ b', whole_array_pass 1 [256; 513; 2; 259] [0; 0; 0; 0] = Ok b' ∧
        Sorted (le_key 1) (ptr_to_arr b').
Proof.
  destruct (whole_array_pass_extends_key [256; 513; 2; 259] [0; 0; 0; 0] 1)
    as (b' & Hrun & _ & Hs).
  - unfold Int32.INT_MAX. simpl. lia.
  - reflexivity.
  - lia.
  - repeat constructor; vm_compute; congruence.
  - exists b'. split; [exact Hrun | exact Hs].
Defined.

Lemma lsd_done (l : list Z) :
  Forall (λ x, 0 ≤ x ≤ Int32.INT_MAX) l →
  StronglySorted (le_key 3) l → StronglySorted Z.le l.
Proof.
  assert (∀ x, 0 ≤ x ≤ Int32.INT_MAX → composite_key 3 x = x) as Hkey.
  { intros x Hx. unfold composite_key, Int32.INT_MAX in *.
    apply Z.mod_small. simpl. lia. }
  intros Hall HSS. induction HSS as [|x l HSS IH Hx]; [constructor|].
  apply Forall_cons in Hall as [Hx0 Hall].
  constructor; [by apply IH|].
  rewrite Forall_forall in Hx, Hall. apply Forall_forall. intros y Hy.
  specialize (Hx y Hy). unfold le_key in Hx.
  rewrite (Hkey x Hx0), (Hkey y (Hall y Hy)) in Hx. exact Hx.
Qed.

(** X9. Four whole-array calls of [sort_counting], for the digits 0, 1, 2
    and 3 in this order, each with zeroed histograms and each on the
    array the previous one left, all succeed and sort any array of
    non-negative [int] values: the result is a non-decreasing permutation
    of the input. *)
Theorem four_whole_array_passes_sort (arr scratch : list Z) :
  Z.of_nat (length arr) ≤ Int32.INT_MAX →
  length scratch = length arr →
  Forall (λ x, 0 ≤ x ≤ Int32.INT_MAX) arr →
  ∃ b0 b1 b2 b3,
    whole_array_pass 0 arr scratch = Ok b0 ∧
    whole_array_pass 1 (ptr_to_arr b0) (sorted_arr b0) = Ok b1 ∧
    whole_array_pass 2 (ptr_to_arr b1) (sorted_arr b1) = Ok b2 ∧
    whole_array_pass 3 (ptr_to_arr b2) (sorted_arr b2) = Ok b3 ∧
    ptr_to_arr b3 ≡ₚ arr ∧
    Sorted Z.le (ptr_to_arr b3).
Proof.
  intros Hfit Hlen Hall.
  destruct (whole_array_pass_result arr scratch 0 ltac:(lia) Hfit Hlen)
    as (b0 & Hrun0 & Ha0 & Ho0 & Hl0).
  destruct (whole_array_pass_result (ptr_to_arr b0) (sorted_arr b0) 1)
    as (b1 & Hrun1 & Ha1 & Ho1 & Hl1); [lia | lia | congruence |].
  destruct (whole_array_pass_result (ptr_to_arr b1) (sorted_arr b1) 2)
    as (b2 & Hrun2 & Ha2 & Ho2 & Hl2); [lia | lia | congruence |].
  destruct (whole_array_pass_result (ptr_to_arr b2) (sorted_arr b2) 3)
    as (b3 & Hrun3 & Ha3 & Ho3 & Hl3); [lia | lia | congruence |].
  exists b0, b1, b2, b3. split_and!; try done.
  - rewrite Ha3, bucket_sort_perm, Ha2, bucket_sort_perm,
            Ha1, bucket_sort_perm, Ha0. apply bucket_sort_perm.
  - apply StronglySorted_Sorted, lsd_done.
    + rewrite Ha3, bucket_sort_perm, Ha2, bucket_sort_perm,
              Ha1, bucket_sort_perm, Ha0, bucket_sort_perm. exact Hall.
    + rewrite Ha3. apply buckets_from_lsd; [lia|].
      rewrite Ha2. apply buckets_from_lsd; [lia|].
      rewrite Ha1. apply buckets_from_lsd; [lia|].
      rewrite Ha0. apply buckets_from_lsd; [lia|].
      assert (∀ l : list Z, StronglySorted (le_key (0 - 1)) l) as Htriv.
      { induction l as [|x l IH]; constructor; [exact IH|].
        apply Forall_forall. intros y _. unfold le_key, composite_key.
        simpl. rewrite !Z.mod_1_r. lia. }
      apply Htriv.
Qed.

(** The eight elements of the documented scenario get sorted. *)
Lemma four_whole_array_passes_sort_witness :
  ∃ b0 b1 b2 b3,
    whole_array_pass 0 [170; 45; 75; 90; 802; 24; 2; 66] (replicate 8 0) = Ok b0 ∧
    whole_array_pass 1 (ptr_to_arr b0) (sorted_arr b0) = Ok b1 ∧
    whole_array_pass 2 (ptr_to_arr b1) (sorted_arr b1) = Ok b2 ∧
    whole_array_pass 3 (ptr_to_arr b2) (sorted_arr b2) = Ok b3 ∧
    Sorted Z.le (ptr_to_arr b3).
Proof.
  destruct (four_whole_array_passes_sort [170; 45; 75; 90; 802; 24; 2; 66]
              (replicate 8 0))
    as (b0 & b1 & b2 & b3 & H0 & H1 & H2 & H3 & _ & Hs).
  - unfold Int32.INT_MAX. simpl. lia.
  - reflexivity.
  - unfold Int32.INT_MAX. repeat constructor; lia.
  - exists b0, b1, b2, b3. split_and!; assumption.
Defined.

(** ** What [sort_counting] leaves in the histograms *)






(** ** Witnesses for the chunk arithmetic *)

(** For [n = 9] chunk 4 ends at index 9 and chunk 5 starts at index 10. *)
Lemma chunks_disjoint_witness :
  end_idx (chunk 9 0 4) < start_idx (chunk 9 0 5).
Proof. apply (chunks_disjoint 9 0 4 5); unfold Int32.INT_MAX; lia. Defined.

(** For [n = 100] chunk 3 starts right after chunk 2. *)
Lemma chunks_contiguous_witness :
  start_idx (chunk 100 0 3) = end_idx (chunk 100 0 2) + 1.
Proof.
  destruct (chunks_contiguous 100 0) as (_ & H & _); [unfold Int32.INT_MAX; lia|].
  apply (H 2). lia.
Defined.

(** For [n = 100] seven chunks of 13 fit and chunk 6 ends inside. *)
Lemma chunks_inside_iff_witness :
  end_idx (chunk 100 0 6) ≤ 100 - 1.
Proof.
  apply (chunks_inside_iff 100 0); [unfold Int32.INT_MAX; lia|].
  vm_compute. discriminate.
Defined.

(** The range [1 .. 2] gives [1, 3] between any neighbours. *)
Lemma sort_insertion_local_witness :
  ∃ seg', sort_insertion ([7] ++ [3; 1] ++ [0]) 1 2 = Ok ([7] ++ seg' ++ [0]) ∧
          sort_insertion ([2] ++ [3; 1] ++ [9; 9]) 1 2 = Ok ([2] ++ seg' ++ [9; 9]).
Proof.
  apply (sort_insertion_local [7] [2] [3; 1] [0] [9; 9] 1 2); reflexivity.
Defined.

(** ** [sort_counting] on a chunk *)

Lemma for_up_embed {S1 S2} (f : S2 → S1) (off : Z)
    (body1 : Z → S1 → outcome S1) (body2 : Z → S2 → outcome S2)
    (k : nat) (lo : Z) (s s' : S2) :
  (∀ i t t', body2 i t = Ok t' → body1 (i + off) (f t) = Ok (f t')) →
  for_up k lo body2 s = Ok s' →
  for_up k (lo + off) body1 (f s) = Ok (f s').
Proof.
  intros Hstep. revert lo s. induction k as [|k IH]; intros lo s Hrun.
  - simpl in *. by injection Hrun as ->.
  - cbn [for_up] in *. apply bind_Ok_inv in Hrun as (t & Ht & Hrun).
    rewrite (Hstep _ _ _ Ht), bind_Ok.
    replace (lo + off + 1) with (lo + 1 + off) by lia. by apply IH.
Qed.

Lemma for_down_embed {S1 S2} (f : S2 → S1) (off : Z)
    (body1 : Z → S1 → outcome S1) (body2 : Z → S2 → outcome S2)
    (k : nat) (hi : Z) (s s' : S2) :
  (∀ i t t', body2 i t = Ok t' → body1 (i + off) (f t) = Ok (f t')) →
  for_down k hi body2 s = Ok s' →
  for_down k (hi + off) body1 (f s) = Ok (f s').
Proof.
  intros Hstep. revert hi s. induction k as [|k IH]; intros hi s Hrun.
  - simpl in *. by injection Hrun as ->.
  - cbn [for_down] in *. apply bind_Ok_inv in Hrun as (t & Ht & Hrun).
    rewrite (Hstep _ _ _ Ht), bind_Ok.
    replace (hi + off - 1) with (hi - 1 + off) by lia. by apply IH.
Qed.

Lemma rd_app_embed {A} (pre l post : list A) (i : Z) (x : A) :
  rd l i = Ok x → rd (pre ++ l ++ post) (i + Z.of_nat (length pre)) = Ok x.
Proof.
  intros H. apply rd_lookup in H as [Hi H]. apply rd_lookup. split; [lia|].
  rewrite lookup_app_r by lia.
  replace (Z.to_nat (i + Z.of_nat (length pre)) - length pre)%nat
    with (Z.to_nat i) by lia.
  by apply lookup_app_l_Some.
Qed.

Lemma wr_app_embed {A} (o o' rest : list A) (p : Z) (x : A) :
  wr o p x = Ok o' → wr (o ++ rest) p x = Ok (o' ++ rest).
Proof.
  intros H. apply wr_inv in H as [Hp ->].
  rewrite wr_in by (rewrite length_app; lia).
  by rewrite insert_app_l by lia.
Qed.

Section ChunkEmbedding.
Context (pre post rest : list Z).

Local Abbreviation embed := (embed_chunk pre post rest).

Lemma count_step_embed (e i : Z) (b b' : bufs) :
  count_step e i b = Ok b' →
  count_step e (i + Z.of_nat (length pre)) (embed b) = Ok (embed b').
Proof.
  unfold count_step. intros H.
  apply bind_Ok_inv in H as (x & Hx & H).
  apply bind_Ok_inv in H as (digit & Hd & H).
  apply bind_Ok_inv in H as (c & Hc & H).
  apply bind_Ok_inv in H as (l' & Hl & H). injection H as <-.
  simpl. rewrite (rd_app_embed _ _ _ _ _ Hx), bind_Ok, Hd, bind_Ok.
  rewrite Hc, bind_Ok, Hl. reflexivity.
Qed.

Lemma fold_step_embed (i : Z) (b b' : bufs) :
  fold_step i b = Ok b' → fold_step (i + 0) (embed b) = Ok (embed b').
Proof.
  unfold fold_step. intros H. replace (i + 0) with i by lia.
  apply bind_Ok_inv in H as (g & Hg & H).
  apply bind_Ok_inv in H as (c & Hc & H).
  apply bind_Ok_inv in H as (g' & Hg' & H). injection H as <-.
  simpl. rewrite Hg, bind_Ok, Hc, bind_Ok, Hg'. reflexivity.
Qed.

Lemma prefix_step_embed (i : Z) (b b' : bufs) :
  prefix_step i b = Ok b' → prefix_step (i + 0) (embed b) = Ok (embed b').
Proof.
  unfold prefix_step. intros H. replace (i + 0) with i by lia.
  apply bind_Ok_inv in H as (g & Hg & H).
  apply bind_Ok_inv in H as (c & Hc & H).
  apply bind_Ok_inv in H as (g' & Hg' & H). injection H as <-.
  simpl. rewrite Hg, bind_Ok, Hc, bind_Ok, Hg'. reflexivity.
Qed.

Lemma scatter_step_embed (e i : Z) (b b' : bufs) :
  scatter_step e i b = Ok b' →
  scatter_step e (i + Z.of_nat (length pre)) (embed b) = Ok (embed b').
Proof.
  unfold scatter_step. intros H.
  apply bind_Ok_inv in H as (x & Hx & H).
  apply bind_Ok_inv in H as (digit & Hd & H).
  apply bind_Ok_inv in H as (g & Hg & H).
  apply bind_Ok_inv in H as (o' & Ho & H).
  apply bind_Ok_inv in H as (g' & Hg' & H). injection H as <-.
  simpl. rewrite (rd_app_embed _ _ _ _ _ Hx), bind_Ok, Hd, bind_Ok, Hg, bind_Ok.
  rewrite (wr_app_embed _ _ _ _ _ Ho), bind_Ok. simpl. rewrite Hg'.
  reflexivity.
Qed.

(** The first four loops on a chunk do what they do on an array that
    consists of that chunk. *)
Lemma count_and_scatter_embed (e : Z) (b b' : bufs) (start_idx end_idx : Z) :
  start_idx = Z.of_nat (length pre) →
  end_idx = start_idx + Z.of_nat (length (ptr_to_arr b)) - 1 →
  count_and_scatter e 0 (Z.of_nat (length (ptr_to_arr b)) - 1) b = Ok b' →
  count_and_scatter e start_idx end_idx (embed b) = Ok (embed b').
Proof.
  intros Hs He. unfold count_and_scatter, for_range, for_range_rev. intros H.
  apply bind_Ok_inv in H as (b1 & H1 & H).
  apply bind_Ok_inv in H as (b2 & H2 & H).
  apply bind_Ok_inv in H as (b3 & H3 & H4).
  pose proof (for_up_embed embed _ _ _ _ _ _ _ (count_step_embed e) H1) as H1'.
  pose proof (for_up_embed embed _ _ _ _ _ _ _ fold_step_embed H2) as H2'.
  pose proof (for_up_embed embed _ _ _ _ _ _ _ prefix_step_embed H3) as H3'.
  pose proof (for_down_embed embed _ _ _ _ _ _ _ (scatter_step_embed e) H4) as H4'.
  replace (0 + Z.of_nat (length pre)) with start_idx in H1' by lia.
  replace (Z.to_nat (Z.of_nat (length (ptr_to_arr b)) - 1 - 0 + 1))
    with (Z.to_nat (end_idx - start_idx + 1)) in H1', H4' by lia.
  replace (Z.of_nat (length (ptr_to_arr b)) - 1 + Z.of_nat (length pre))
    with end_idx in H4' by lia.
  change (0 + 0) with 0 in H2'. change (1 + 0) with 1 in H3'.
  rewrite H1', bind_Ok, H2', bind_Ok, H3', bind_Ok. exact H4'.
Qed.
End ChunkEmbedding.

Lemma count_and_scatter_whole (l scratch : list Z) (e : Z) :
  0 ≤ e ≤ 3 →
  Z.of_nat (length l) ≤ Int32.INT_MAX →
  length scratch = length l →
  ∃ loc g,
    count_and_scatter e 0 (Z.of_nat (length l) - 1)
                      (Bufs l calloc_counts calloc_counts scratch)
    = Ok (Bufs l loc g (bucket_sort e l)).
Proof.
  intros He Hfit Hlen. unfold count_and_scatter.
  destruct (count_loop_spec e l He Hfit calloc_counts calloc_counts scratch)
    as (loc & -> & Hloc); [apply rd_calloc_counts|].
  rewrite bind_Ok.
  destruct (fold_loop_spec e l Hfit loc calloc_counts scratch)
    as (g1 & -> & Hg1); [exact Hloc | apply rd_calloc_counts |].
  rewrite bind_Ok.
  destruct (prefix_loop_spec e l Hfit loc g1 scratch)
    as (g2 & -> & Hg2); [exact Hg1|].
  rewrite bind_Ok.
  destruct (scatter_loop_spec e l He Hfit loc g2 scratch)
    as (g3 & -> & Hg3); [exact Hg2 | exact Hlen |].
  by exists loc, g3.
Qed.

(** X15. On any in-bounds range of the array, at one of the four digit
    positions of an [int] ([0 <= digit_exp <= 3]), entered with zeroed
    local and global histograms and an output buffer at least as long as
    the range, [sort_counting] succeeds and is a stable counting sort of that
    range: the cells of the range end up as a permutation of themselves
    that is non-decreasing in the digit, cells with the same digit in
    their original order, and the cells before and after the range are
    unchanged. *)
Theorem sort_counting_sorts_chunk (arr out : list Z) (start_idx end_idx digit_exp : Z) :
  0 ≤ digit_exp ≤ 3 →
  0 ≤ start_idx → start_idx ≤ end_idx + 1 →
  end_idx < Z.of_nat (length arr) →
  end_idx - start_idx + 1 ≤ Z.of_nat (length out) →
  end_idx - start_idx + 1 ≤ Int32.INT_MAX →
  ∃ b' seg',
    sort_counting (Bufs arr calloc_counts calloc_counts out)
                  start_idx end_idx digit_exp = Ok b' ∧
    ptr_to_arr b' = take (Z.to_nat start_idx) arr ++ seg'
                    ++ drop (Z.to_nat (end_idx + 1)) arr ∧
    seg' ≡ₚ range_of arr start_idx end_idx ∧
    Sorted (le_digit digit_exp) seg' ∧
    ∀ d, filter (λ x, digit_of digit_exp x = d) seg'
         = filter (λ x, digit_of digit_exp x = d) (range_of arr start_idx end_idx).
Proof.
  intros He H0 H1 H2 H3 H4.
  set (k := Z.to_nat (end_idx - start_idx + 1)).
  set (pre := take (Z.to_nat start_idx) arr).
  set (seg := range_of arr start_idx end_idx).
  set (post := drop (Z.to_nat (end_idx + 1)) arr).
  assert (arr = pre ++ seg ++ post) as Harr.
  { unfold pre, seg, post, range_of.
    replace (Z.to_nat (end_idx + 1)) with (Z.to_nat start_idx + k)%nat by lia.
    rewrite <- drop_drop, take_drop. by rewrite take_drop. }
  assert (length pre = Z.to_nat start_idx) as Hpre
    by (unfold pre; rewrite length_take; lia).
  assert (length seg = k) as Hseg
    by (unfold seg, range_of; rewrite length_take, length_drop; lia).
  destruct (count_and_scatter_whole seg (take k out) digit_exp)
    as (loc & g & Hsmall); [exact He | lia | rewrite length_take; lia |].
  pose proof (count_and_scatter_embed pre post (drop k out) digit_exp
                (Bufs seg calloc_counts calloc_counts (take k out)) _
                start_idx end_idx ltac:(lia) ltac:(simpl; lia) Hsmall) as Hbig.
  unfold embed_chunk in Hbig. simpl in Hbig.
  rewrite take_drop, <- Harr in Hbig.
  unfold sort_counting. rewrite Hbig, bind_Ok.
  pose proof (length_bucket_sort digit_exp seg) as HT.
  rewrite copy_back_spec by (try rewrite length_app; lia).
  eexists _, (bucket_sort digit_exp seg). split; [reflexivity|]. simpl.
  split_and!.
  - fold pre post. do 2 f_equal. apply take_app_length'. lia.
  - apply bucket_sort_perm.
  - apply StronglySorted_Sorted, buckets_from_sorted.
  - intros d. apply bucket_sort_filter.
Qed.

(** The range [1 .. 3] of a five-element array sorted by low byte. *)
Lemma sort_counting_sorts_chunk_witness :
  ∃ b' seg',
    sort_counting (Bufs [9; 258; 1; 257; 0] calloc_counts calloc_counts
                        [0; 0; 0; 0; 0]) 1 3 0 = Ok b' ∧
    ptr_to_arr b' = [9] ++ seg' ++ [0] ∧
    filter (λ x, digit_of 0 x = 1) seg' = [1; 257].
Proof.
  destruct (sort_counting_sorts_chunk [9; 258; 1; 257; 0] [0; 0; 0; 0; 0] 1 3 0)
    as (b' & seg' & Hrun & Harr & _ & _ & Hfil);
    [lia | lia | lia | simpl; lia | simpl; lia | unfold Int32.INT_MAX; lia |].
  exists b', seg'. split; [exact Hrun|]. split; [exact Harr|].
  rewrite Hfil. reflexivity.
Defined.

(** ** [sort_radix] on up to 256 elements whose chunks fit *)

Lemma range_of_frame (pre seg seg' post : list Z) (s e : Z) :
  length seg' = length seg → 0 ≤ s →
  e < Z.of_nat (length pre) ∨ Z.of_nat (length pre + length seg) ≤ s →
  range_of (pre ++ seg' ++ post) s e = range_of (pre ++ seg ++ post) s e.
Proof.
  intros Hlen Hs Hout. unfold range_of.
  destruct (decide (e < s)) as [Hempty|Hne].
  { replace (Z.to_nat (e - s + 1)) with 0%nat by lia. reflexivity. }
  destruct Hout as [Hbefore|Hafter].
  - rewrite !(drop_app_le pre) by lia.
    rewrite !take_app_le by (rewrite length_drop; lia). reflexivity.
  - rewrite !(drop_app_ge pre) by lia.
    rewrite !drop_app_ge by lia. by rewrite Hlen.
Qed.

Lemma short_range_sorted (a : list Z) (s e : Z) :
  e ≤ s → Sorted Z.le (range_of a s e).
Proof.
  intros H. unfold range_of.
  destruct (decide (e < s)).
  - replace (Z.to_nat (e - s + 1)) with 0%nat by lia. constructor.
  - replace (Z.to_nat (e - s + 1)) with 1%nat by lia.
    destruct (drop (Z.to_nat s) a) as [|x l]; simpl; repeat constructor.
Qed.

(** What one worker in the insertion branch does to the array. *)
Lemma sort_insertion_range (a : list Z) (s e : Z) :
  0 ≤ s → s ≤ e + 1 → e < Z.of_nat (length a) →
  ∃ a', sort_insertion a s e = Ok a' ∧
        a' ≡ₚ a ∧ length a' = length a ∧
        Sorted Z.le (range_of a' s e) ∧
        range_of a' s e ≡ₚ range_of a s e ∧
        (∀ s' e', 0 ≤ s' → e' < s ∨ e < s' →
                  range_of a' s' e' = range_of a s' e') ∧
        (∀ k, e < k → drop (Z.to_nat k) a' = drop (Z.to_nat k) a).
Proof.
  intros H0 H1 H2. unfold sort_insertion.
  destruct (decide (e ≤ s)) as [Hle|Hgt].
  - exists a. rewrite sort_insertion_cells_noop by exact Hle.
    split_and!; try done. by apply short_range_sorted.
  - destruct (split_range a s e) as (pre & seg & post & -> & Hp & Hseg); [lia..|].
    destruct (sort_insertion_cells_spec (λ x : Z, x) pre seg post s e)
      as (seg' & Hrun & Hlen & HSS & Hperm & _); [lia | lia | |].
    { destruct seg; [simpl in Hseg; lia | done]. }
    rewrite firstn_all in Hperm.
    exists (pre ++ seg' ++ post). split; [exact Hrun|]. split_and!.
    + by rewrite Hperm.
    + rewrite !length_app. lia.
    + rewrite range_of_middle by lia. by apply StronglySorted_Sorted.
    + rewrite !range_of_middle by lia. exact Hperm.
    + intros s' e' Hs' Hout. apply range_of_frame; [exact Hlen | exact Hs' | lia].
    + intros k Hk. rewrite !(drop_app_ge pre) by lia.
      rewrite !drop_app_ge by lia. by rewrite Hlen.
Qed.

Lemma chunk_fit_bounds (n d i : Z) :
  1 ≤ n ≤ 256 → 7 * chunk_size n ≤ n → 0 ≤ i ≤ 7 →
  0 ≤ start_idx (chunk n d i) ∧
  start_idx (chunk n d i) ≤ end_idx (chunk n d i) + 1 ∧
  end_idx (chunk n d i) < n ∧
  (∀ j, 0 ≤ j ≤ 7 → j < i →
        end_idx (chunk n d j) < start_idx (chunk n d i)) ∧
  (∀ j, 0 ≤ j ≤ 7 → i < j →
        end_idx (chunk n d i) < start_idx (chunk n d j)).
Proof.
  intros Hn Hfit Hi.
  assert (0 ≤ n ≤ Int32.INT_MAX - 8) as Hn' by (unfold Int32.INT_MAX; lia).
  rewrite chunk_size_eq in Hfit by exact Hn'.
  assert (0 ≤ (n + 7) / 8) as Hcs by (apply Z.div_pos; lia).
  destruct (chunk_bounds n d i Hn' Hi) as [Hs He].
  rewrite Hs, He. split_and!.
  - nia.
  - destruct (decide (i = 7)) as [->|]; lia.
  - destruct (decide (i = 7)) as [->|]; [lia | nia].
  - intros j Hj Hji. destruct (chunk_bounds n d j Hn' Hj) as [_ ->].
    rewrite decide_False by lia. nia.
  - intros j Hj Hij. destruct (chunk_bounds n d j Hn' Hj) as [-> _].
    rewrite decide_False by lia. nia.
Qed.

Section FittingChunks.
Context (n : Z).
Hypothesis Hn : 1 ≤ n ≤ 256.
Hypothesis Hfit : 7 * chunk_size n ≤ n.

(** One digit pass: every chunk is sorted on its own. *)
Lemma run_pass_sorts_chunks (d : Z) (a loc g o : list Z) :
  n ≤ Z.of_nat (length a) →
  ∃ a' loc', run_pass n d (Bufs a loc g o) = Ok (Bufs a' loc' calloc_counts o) ∧
        a' ≡ₚ a ∧ length a' = length a ∧
        drop (Z.to_nat n) a' = drop (Z.to_nat n) a ∧
        chunks_sorted n a' 8 ∧ chunks_kept n a a'.
Proof.
  intros Hlen. unfold run_pass.
  destruct (for_range_inv
    (λ i b, ∃ a' loc', b = Bufs a' loc' g o ∧
              a' ≡ₚ a ∧ length a' = length a ∧
              drop (Z.to_nat n) a' = drop (Z.to_nat n) a ∧
              chunks_sorted n a' i ∧ chunks_kept n a a')
    (run_worker n d) 0 (MAX_THREADS - 1) (Bufs a loc g o))
    as (b & Hrun & a' & loc' & -> & Hperm & Hl & Hdrop & Hsorted & Hkept).
  - unfold MAX_THREADS. lia.
  - exists a, loc. split_and!; try done.
    + intros j Hj. lia.
    + intros j Hj. reflexivity.
  - intros i b Hi (a' & loc' & -> & Hperm & Hl & Hdrop & Hsorted & Hkept).
    unfold MAX_THREADS in Hi.
    destruct (chunk_fit_bounds n d i Hn Hfit ltac:(lia))
      as (Hs0 & Hse & Hen & Hbefore & Hafter).
    unfold run_worker, sort_radix_thread.
    rewrite chunk_len_small by lia. cbn [ptr_to_arr set_local].
    destruct (sort_insertion_range a' (start_idx (chunk n d i)) (end_idx (chunk n d i)))
      as (a'' & Hins & Hperm' & Hl' & Hsrt & Hkeep & Hframe & Hdrop');
      [lia | lia | lia |].
    rewrite Hins, bind_Ok. eexists. split; [reflexivity|].
    exists a'', calloc_counts. split; [reflexivity|]. split_and!.
    + by rewrite Hperm'.
    + lia.
    + rewrite Hdrop' by lia. exact Hdrop.
    + intros j Hj. destruct (decide (j = i)) as [->|Hji]; [exact Hsrt|].
      change (start_idx (chunk n 0 j)) with (start_idx (chunk n d j)).
      change (end_idx (chunk n 0 j)) with (end_idx (chunk n d j)).
      destruct (chunk_fit_bounds n d j Hn Hfit ltac:(lia)) as (Hj0 & _).
      rewrite Hframe; [apply (Hsorted j); lia | exact Hj0 |].
      left. apply Hbefore; lia.
    + intros j Hj.
      change (start_idx (chunk n 0 j)) with (start_idx (chunk n d j)).
      change (end_idx (chunk n 0 j)) with (end_idx (chunk n d j)).
      destruct (decide (j = i)) as [->|Hji].
      * rewrite Hkeep. apply (Hkept i Hj).
      * destruct (chunk_fit_bounds n d j Hn Hfit Hj) as (Hj0 & _).
        rewrite Hframe; [apply (Hkept j Hj) | exact Hj0 |].
        destruct (decide (j < i)); [left; apply Hbefore; lia|].
        right. apply Hafter; lia.
  - exists a', loc'. split; [|done]. rewrite Hrun. reflexivity.
Qed.

Lemma chunks_kept_trans (a0 a1 a2 : list Z) :
  chunks_kept n a0 a1 → chunks_kept n a1 a2 → chunks_kept n a0 a2.
Proof. intros H1 H2 j Hj. rewrite (H2 j Hj). apply (H1 j Hj). Qed.

(** What every digit pass keeps ([ptr_to_arr] against the array [a0] on
    entry of the driver) and what it establishes. *)
Lemma run_pass_chunks_step (a0 : list Z) :
  n ≤ Z.of_nat (length a0) →
  ∀ d b,
    (ptr_to_arr b ≡ₚ a0 ∧ length (ptr_to_arr b) = length a0 ∧
     drop (Z.to_nat n) (ptr_to_arr b) = drop (Z.to_nat n) a0 ∧
     chunks_kept n a0 (ptr_to_arr b)) →
    ∃ b', run_pass n d b = Ok b' ∧
          (ptr_to_arr b' ≡ₚ a0 ∧ length (ptr_to_arr b') = length a0 ∧
           drop (Z.to_nat n) (ptr_to_arr b') = drop (Z.to_nat n) a0 ∧
           chunks_kept n a0 (ptr_to_arr b')) ∧
          chunks_sorted n (ptr_to_arr b') 8.
Proof.
  intros Hlen d [a loc g o]. cbn [ptr_to_arr].
  intros (Hperm & Hl & Hdrop & Hkept).
  destruct (run_pass_sorts_chunks d a loc g o ltac:(lia))
    as (a1 & loc1 & Hpass & Hperm1 & Hl1 & Hdrop1 & Hsorted1 & Hkept1).
  eexists. split; [exact Hpass|]. cbn [ptr_to_arr]. split_and!.
  - by rewrite Hperm1.
  - lia.
  - by rewrite Hdrop1.
  - by apply (chunks_kept_trans a0 a).
  - exact Hsorted1.
Qed.
End FittingChunks.

(** X16. What the driver does on up to 256 elements, all below [2^24],
    when the seven equal chunks fit in [n] (as for every multiple of 8):
    it succeeds, and
    if some element is positive every one of the eight chunks comes out
    in non-decreasing order and holding exactly the elements it held on
    entry.  Chunks are sorted one by one and never exchange elements;
    the array as a whole is permuted and the buffer beyond [n] is
    untouched. *)
Theorem sort_radix_sorts_each_chunk (arr : list Z) (n : Z) :
  1 ≤ n ≤ 256 → n ≤ Z.of_nat (length arr) →
  7 * chunk_size n ≤ n →
  (∀ i x, 0 ≤ i < n → rd arr i = Ok x → x < 2 ^ 24) →
  (∃ i x, 0 ≤ i < n ∧ rd arr i = Ok x ∧ 0 < x) →
  ∃ arr', sort_radix arr n = Ok arr' ∧
          arr' ≡ₚ arr ∧
          drop (Z.to_nat n) arr' = drop (Z.to_nat n) arr ∧
          ∀ j, 0 ≤ j ≤ 7 →
               Sorted Z.le (range_of arr' (start_idx (chunk n 0 j))
                                          (end_idx (chunk n 0 j))) ∧
               range_of arr' (start_idx (chunk n 0 j)) (end_idx (chunk n 0 j))
               ≡ₚ range_of arr (start_idx (chunk n 0 j)) (end_idx (chunk n 0 j)).
Proof.
  intros Hn Hlen Hfit Hsmall (i & x & Hi & Hx & Hpos). unfold sort_radix.
  destruct (find_max_scan arr n) as (m & -> & (k & Hk & Hkm) & Hmax).
  { destruct arr; [simpl in Hlen; lia | done]. }
  { exact Hlen. }
  rewrite bind_Ok.
  assert (0 < m) as Hm by (specialize (Hmax i x ltac:(lia) Hx); lia).
  assert (m < 2 ^ 24) as Hm24 by (apply (Hsmall k m); [lia | exact Hkm]).
  destruct (pass_loop_ends _ _ n m (run_pass_chunks_step n Hn Hfit arr Hlen) 4 0
              (Bufs arr [] calloc_counts (malloc_ints n)))
    as (b' & Hrun & (Hperm & _ & Hdrop & Hkept) & _ & Hsorted);
    [lia | lia | lia | exact Hm24 | |].
  { cbn [ptr_to_arr]. split_and!; try done. intros j Hj. reflexivity. }
  rewrite Hrun, bind_Ok. exists (ptr_to_arr b'). split; [reflexivity|].
  split_and!; try done.
  intros j Hj. split; [|by apply Hkept].
  apply Hsorted; [|lia].
  change (8 * 0) with 0. rewrite Z.shiftr_0_r. by apply Z.gtb_lt.
Qed.

(** Sixteen elements in decreasing order: the chunks are the eight pairs,
    and the first pair comes out in order. *)
Lemma sort_radix_sorts_each_chunk_witness :
  ∃ arr', sort_radix [16; 15; 14; 13; 12; 11; 10; 9; 8; 7; 6; 5; 4; 3; 2; 1] 16
          = Ok arr' ∧
          Sorted Z.le (range_of arr' 0 1) ∧ range_of arr' 0 1 ≡ₚ [16; 15].
Proof.
  destruct (sort_radix_sorts_each_chunk
              [16; 15; 14; 13; 12; 11; 10; 9; 8; 7; 6; 5; 4; 3; 2; 1] 16)
    as (arr' & Hrun & _ & _ & Hchunks).
  - lia.
  - simpl. lia.
  - vm_compute. discriminate.
  - intros i x Hi Hx. apply rd_lookup in Hx as [_ Hx].
    apply list_elem_of_lookup_2 in Hx.
    repeat (apply elem_of_cons in Hx as [->|Hx]; [lia|]).
    by apply elem_of_nil in Hx.
  - exists 0, 16. split; [lia|]. split; [reflexivity | lia].
  - exists arr'. split; [exact Hrun|]. exact (Hchunks 0 ltac:(lia)).
Defined.

(** ** [sort_radix] on sizes whose chunks do not fit *)

(** X17. Between 9 and 256 elements, when seven chunks of [ceil(n/8)]
    elements do not fit in [n] (the sizes 9-13, 17-20, 25-27, 33, 34 and
    41), [sort_radix] on an array of exactly [n] elements with a positive
    element faults: in the first digit pass the first worker whose range
    reaches past [n - 1] reads a cell at index [n] or [n + 1]. *)
Theorem sort_radix_overruns_when_chunks_do_not_fit (arr : list Z) (n : Z) :
  9 ≤ n ≤ 256 → Z.of_nat (length arr) = n →
  n < 7 * chunk_size n →
  (∃ i x, 0 ≤ i < n ∧ rd arr i = Ok x ∧ 0 < x) →
  ∃ k, n ≤ k ≤ n + 1 ∧ sort_radix arr n = OutOfBounds k.
Proof.
  intros Hn Hlen Hfit (i & x & Hi & Hx & Hpos). unfold sort_radix.
  destruct (find_max_scan arr n) as (m & -> & _ & Hmax).
  { destruct arr; [simpl in Hlen; lia | done]. }
  { lia. }
  rewrite bind_Ok.
  assert (0 < m) as Hm by (specialize (Hmax i x ltac:(lia) Hx); lia).
  cbn [pass_loop]. rewrite (shr_defined m (8 * 0)), bind_Ok by lia.
  change (8 * 0) with 0. rewrite Z.shiftr_0_r.
  destruct (m >? 0) eqn:Htest;
    [|rewrite Z.gtb_ltb in Htest; apply Z.ltb_ge in Htest; lia].
  assert (0 ≤ n ≤ Int32.INT_MAX - 8) as Hn' by (unfold Int32.INT_MAX; lia).
  rewrite chunk_size_eq in Hfit by exact Hn'.
  set (cs := (n + 7) / 8) in *.
  assert (2 ≤ cs) as Hcs.
  { unfold cs. apply Z.div_le_lower_bound; lia. }
  set (i0 := n / cs).
  assert (0 ≤ i0 ≤ 6 ∧ i0 * cs ≤ n < (i0 + 1) * cs) as (Hi0 & Hi0n).
  { pose proof (Z.div_mod n cs ltac:(lia)) as Hdm.
    pose proof (Z.mod_pos_bound n cs ltac:(lia)) as Hmod.
    fold i0 in Hdm. split; [|nia].
    split; [apply Z.div_pos; lia|].
    pose proof (Z.div_lt_upper_bound n cs 7 ltac:(lia) ltac:(lia)). lia. }
  unfold run_pass, for_range.
  replace (Z.to_nat (MAX_THREADS - 1 - 0 + 1))
    with (Z.to_nat i0 + S (Z.to_nat (7 - i0)))%nat by (unfold MAX_THREADS; lia).
  rewrite for_up_add.
  destruct (for_up_inv
    (λ _ b, ∃ a' loc', b = Bufs a' loc' calloc_counts (malloc_ints n) ∧
                       length a' = length arr)
    (run_worker n 0) (Z.to_nat i0) 0
    (Bufs arr [] calloc_counts (malloc_ints n)))
    as (b & Hrun & a' & loc' & -> & Hl).
  - by exists arr, [].
  - intros j b Hj (a' & loc' & -> & Hl).
    destruct (chunk_bounds n 0 j Hn' ltac:(lia)) as [Hs He].
    rewrite decide_False in He by lia. fold cs in Hs, He.
    unfold run_worker, sort_radix_thread.
    rewrite chunk_len_small by lia. cbn [ptr_to_arr set_local].
    destruct (sort_insertion_range a' (start_idx (chunk n 0 j))
                (end_idx (chunk n 0 j)))
      as (a'' & Hins & _ & Hl' & _); [nia | lia | nia |].
    rewrite Hins, bind_Ok. eexists. split; [reflexivity|].
    exists a'', calloc_counts. split; [reflexivity | lia].
  - rewrite Hrun, bind_Ok. cbn [for_up].
    replace (0 + Z.of_nat (Z.to_nat i0)) with i0 by lia.
    destruct (chunk_bounds n 0 i0 Hn' ltac:(lia)) as [Hs He].
    rewrite decide_False in He by lia. fold cs in Hs, He.
    assert (run_worker n 0 i0 (Bufs a' loc' calloc_counts (malloc_ints n))
            = OutOfBounds (Z.max n (i0 * cs + 1))) as ->.
    { unfold run_worker, sort_radix_thread.
      rewrite chunk_len_small by lia. cbn [ptr_to_arr set_local].
      rewrite sort_insertion_overrun by nia.
      rewrite Hs. replace (Z.of_nat (length a')) with n by lia. reflexivity. }
    exists (Z.max n (i0 * cs + 1)). split; [lia | reflexivity].
Qed.

(** Nine copies of 5 in an array of nine cells: the driver faults. *)
Lemma sort_radix_overruns_when_chunks_do_not_fit_witness :
  ∃ k, 9 ≤ k ≤ 9 + 1 ∧ sort_radix (replicate 9 5) 9 = OutOfBounds k.
Proof.
  apply (sort_radix_overruns_when_chunks_do_not_fit (replicate 9 5) 9).
  - lia.
  - reflexivity.
  - vm_compute. reflexivity.
  - exists 0, 5. split; [lia|]. split; [reflexivity | lia].
Defined.

(** ** [sort_radix] on an element of [2^24] or more *)

(** X18. On up to 256 elements whose passes succeed (at most eight
    elements, or seven chunks that fit in [n]), when one of the elements
    is [2^24] or more the driver returns no array: the loop test holds
    at the digit positions 0, 1, 2 and 3, and is then evaluated at
    [digit_exp = 4], where it shifts [max_elem] by 32, a count for which C
    defines no result. *)
Theorem sort_radix_wide_element_shifts_by_32 (arr : list Z) (n : Z) :
  1 ≤ n ≤ 256 → n ≤ Z.of_nat (length arr) →
  n ≤ 8 ∨ 7 * chunk_size n ≤ n →
  (∃ i x, 0 ≤ i < n ∧ rd arr i = Ok x ∧ 2 ^ 24 ≤ x) →
  sort_radix arr n = ShiftTooWide 32.
Proof.
  intros Hn Hlen Hcase (i & x & Hi & Hx & Hwide). unfold sort_radix.
  destruct (find_max_scan arr n) as (m & -> & _ & Hmax).
  { destruct arr; [simpl in Hlen; lia | done]. }
  { exact Hlen. }
  rewrite bind_Ok.
  assert (2 ^ 24 ≤ m) as Hm by (specialize (Hmax i x ltac:(lia) Hx); lia).
  destruct Hcase as [Hsmall|Hfit].
  - rewrite (pass_loop_shifts_by_32 (λ b, ptr_to_arr b = arr) (λ _, True) n m
               (run_pass_keeps_array n arr ltac:(lia)) 4 0);
      [reflexivity | lia | lia | exact Hm | reflexivity].
  - rewrite (pass_loop_shifts_by_32 _ _ n m
               (run_pass_chunks_step n Hn Hfit arr Hlen) 4 0);
      [reflexivity | lia | lia | exact Hm |].
    cbn [ptr_to_arr]. split_and!; try done. intros j Hj. reflexivity.
Qed.

(** Two elements, the first of them [2^24]. *)
Lemma sort_radix_wide_element_shifts_by_32_witness :
  sort_radix [16777216; 5] 2 = ShiftTooWide 32.
Proof.
  apply (sort_radix_wide_element_shifts_by_32 [16777216; 5] 2).
  - lia.
  - simpl. lia.
  - left. lia.
  - exists 0, 16777216. split; [lia|]. split; [reflexivity | lia].
Defined.

(** The sizes between 9 and 256 whose seven chunks do not fit. *)
Lemma sizes_that_do_not_fit (n : Z) :
  9 ≤ n ≤ 256 →
  n < 7 * chunk_size n ↔
  n ∈ [9; 10; 11; 12; 13; 17; 18; 19; 20; 25; 26; 27; 33; 34; 41].
Proof.
  intros Hn.
  assert (Forall (λ n, n < 7 * chunk_size n ↔
                       n ∈ [9; 10; 11; 12; 13; 17; 18; 19; 20; 25; 26; 27;
                            33; 34; 41]) (seqZ 9 248)) as Hall.
  { apply (bool_decide_unpack _). vm_compute. exact I. }
  rewrite Forall_forall in Hall. apply Hall. apply elem_of_seqZ. lia.
Qed.

(** X12. All eight ranges of a pass lie inside [0, n) exactly when seven
    chunks of [ceil(n/8)] elements fit in [n]; otherwise a worker is
    handed indices past [n - 1]. *)
Theorem chunks_inside_exactly_when_fit (n d : Z) :
  0 ≤ n ≤ Int32.INT_MAX - 8 →
  (∀ i, 0 ≤ i ≤ 7 → 0 ≤ start_idx (chunk n d i) ∧ end_idx (chunk n d i) ≤ n - 1)
  ↔ 7 * chunk_size n ≤ n.
Proof.
  intros Hn. rewrite chunk_size_eq by exact Hn.
  assert (0 ≤ (n + 7) / 8) as Hcs by (apply Z.div_pos; lia).
  split.
  - intros H. destruct (H 6 ltac:(lia)) as [_ H6].
    destruct (chunk_bounds n d 6 Hn ltac:(lia)) as [_ He].
    rewrite decide_False in He by lia. lia.
  - intros Hfit i Hi. destruct (chunk_bounds n d i Hn Hi) as [-> ->].
    split; [nia|]. destruct (decide (i = 7)); [lia | nia].
Qed.

(** For [n = 100] seven chunks of 13 fit, and chunk 6 ends inside. *)
Lemma chunks_inside_exactly_when_fit_witness :
  end_idx (chunk 100 0 6) ≤ 100 - 1.
Proof.
  destruct (chunks_inside_exactly_when_fit 100 0) as [_ H];
    [unfold Int32.INT_MAX; lia|].
  apply (H ltac:(vm_compute; discriminate) 6). lia.
Defined.
